(** * llama_delray: directory indexing and interactive query loop

    A shallow embedding of [src/llama_delray.py] and the proofs of its
    orchestration properties: the directory enumerator over [os.walk], the
    thread-pool document loader with its per-task exception handler and
    progress counter, and the interactive read/query loop of [main].

    Embeddings, the vector index, retrieval and the language model are
    external collaborators; they enter the development as Section variables
    and the events of a run record the calls made to them. *)

From Stdlib Require Import Ascii.
From stdpp Require Import base list strings.

(** ** Strings as Python [str] *)

Module Str.

(** [s.startswith(c)] for a one-character prefix. *)
Definition startswith (c : ascii) (s : string) : bool :=
  match s with
  | String a _ => bool_decide (a = c)
  | EmptyString => false
  end.

(** [s.endswith(c)] for a one-character suffix. *)
Fixpoint endswith (c : ascii) (s : string) : bool :=
  match s with
  | EmptyString => false
  | String a EmptyString => bool_decide (a = c)
  | String _ rest => endswith c rest
  end.

(** [c in s]. *)
Fixpoint contains (c : ascii) (s : string) : bool :=
  match s with
  | EmptyString => false
  | String a rest => bool_decide (a = c) || contains c rest
  end.

(** [not s]: the empty string is falsy. *)
Definition is_empty (s : string) : bool :=
  match s with
  | EmptyString => true
  | String _ _ => false
  end.

(** One character of [str.lower()]: the letters [A]..[Z] (codes 65..90)
    move to [a]..[z], every other character is unchanged.  A line is the
    string of its bytes; outside ASCII no character has one of the letters
    of ['exit'] as its lower case, so the comparison made by the loop is
    decided by the ASCII letters alone. *)
Definition lower_ascii (a : ascii) : ascii :=
  let n := nat_of_ascii a in
  if (65 <=? n)%nat && (n <=? 90)%nat then ascii_of_nat (n + 32) else a.

(** [s.lower()]. *)
Fixpoint lower (s : string) : string :=
  match s with
  | EmptyString => EmptyString
  | String a rest => String (lower_ascii a) (lower rest)
  end.

(** The reference notion of equality up to letter case, by folding to
    upper case: [a]..[z] (codes 97..122) move to [A]..[Z]. *)
Definition upper_ascii (a : ascii) : ascii :=
  let n := nat_of_ascii a in
  if (97 <=? n)%nat && (n <=? 122)%nat then ascii_of_nat (n - 32) else a.

Fixpoint upper (s : string) : string :=
  match s with
  | EmptyString => EmptyString
  | String a rest => String (upper_ascii a) (upper rest)
  end.

Definition caseless_eq (s t : string) : Prop := upper s = upper t.

End Str.

(** ** The file system seen by [os.walk] *)

(** What [os.scandir] lists in a directory: plain files, and directories
    with their own listing.  The tree has no symbolic links and every
    directory below the walked root can be listed. *)
#[local] Unset Elimination Schemes.
Inductive entry : Type :=
| File (name : string)
| Dir (name : string) (children : list entry).
#[local] Set Elimination Schemes.

Definition entry_name (e : entry) : string :=
  match e with
  | File n => n
  | Dir n _ => n
  end.

(** A file system answers [os.scandir(path)]: [None] stands for the
    [OSError] raised on a path that does not exist or is not a directory. *)
Definition filesystem : Type := string -> option (list entry).

Definition sep : ascii := "/"%char.

(** [os.path.join(a, b)] of [posixpath], for two components. *)
Definition os_path_join (a b : string) : string :=
  if Str.startswith sep b then b
  else if Str.is_empty a || Str.endswith sep a then a +:+ b
  else a +:+ String sep b.

(** The names [os.walk] puts in [dirs] and in [files] for one listing. *)
Definition dirnames (es : list entry) : list string :=
  flat_map (fun e => match e with Dir n _ => [n] | File _ => [] end) es.

Definition filenames (es : list entry) : list string :=
  flat_map (fun e => match e with File n => [n] | Dir _ _ => [] end) es.

(** One item produced by [os.walk]: [(root, dirs, files)]. *)
Definition walk_item : Type := string * list string * list string.

(** The items [os.walk] yields for the subtree of one entry of the listing
    of [top], top-down: the directory itself first, then its
    subdirectories in listing order.  A file yields nothing. *)
Fixpoint walk_entry (top : string) (e : entry) : list walk_item :=
  match e with
  | File _ => []
  | Dir n cs =>
      let p := os_path_join top n in
      (p, dirnames cs, filenames cs) :: flat_map (walk_entry p) cs
  end.

(** [os.walk(top)] with its defaults ([topdown=True], [onerror=None]): a
    scan error on [top] is swallowed and nothing is yielded. *)
Definition os_walk (fs : filesystem) (top : string) : list walk_item :=
  match fs top with
  | None => []
  | Some cs => (top, dirnames cs, filenames cs) :: flat_map (walk_entry top) cs
  end.

(** [get_all_directories(directory)]: for every item of the walk, every
    name of [dirs] joined to the item's root, appended in order. *)
Definition get_all_directories (fs : filesystem) (directory : string) : list string :=
  flat_map (fun '(root, dirs, _) => map (os_path_join root) dirs)
           (os_walk fs directory).

(** *** Well-formed listings

    [os.scandir] never reports an empty name or a name holding the
    separator, and the names of one directory are pairwise distinct. *)
Definition valid_name (n : string) : bool :=
  negb (Str.is_empty n) && negb (Str.contains sep n).

Fixpoint wf_entry (e : entry) : bool :=
  valid_name (entry_name e) &&
  match e with
  | File _ => true
  | Dir _ cs => bool_decide (NoDup (map entry_name cs)) && forallb wf_entry cs
  end.

Definition wf_listing (cs : list entry) : bool :=
  bool_decide (NoDup (map entry_name cs)) && forallb wf_entry cs.

(** *** Reference notions for the enumerator

    [subdirectory top cs p]: [p] is the path of a directory reached from
    [top] (whose listing is [cs]) by descending one or more levels.
    [file_path top cs p]: [p] is the path of a plain file at any depth. *)
Inductive subdirectory (top : string) (cs : list entry) : string -> Prop :=
| subdir_child n sub :
    Dir n sub ∈ cs -> subdirectory top cs (os_path_join top n)
| subdir_nested n sub p :
    Dir n sub ∈ cs -> subdirectory (os_path_join top n) sub p ->
    subdirectory top cs p.

Inductive file_path (top : string) (cs : list entry) : string -> Prop :=
| file_here n :
    File n ∈ cs -> file_path top cs (os_path_join top n)
| file_nested n sub p :
    Dir n sub ∈ cs -> file_path (os_path_join top n) sub p ->
    file_path top cs p.

(** *** Auxiliary notions for the path arguments *)

(** A tail is what may follow a name inside a path: nothing, or a
    separator and more. *)
Definition tail_ok (r : string) : Prop :=
  r = "" ∨ Str.startswith sep r = true.

(** What [os.path.join(top, n)] puts in front of a listed name [n]. *)
Definition path_prefix (top : string) : string :=
  if Str.is_empty top || Str.endswith sep top then top
  else top +:+ String sep "".

(** The directories collected from the walk of a directory [top] whose
    listing is [cs]. *)
Definition dirs_below (top : string) (cs : list entry) : list string :=
  flat_map (fun '(root, dirs, _) => map (os_path_join root) dirs)
           ((top, dirnames cs, filenames cs) :: flat_map (walk_entry top) cs).

(** ** Events of a run *)

(** [str(e)] of an exception instance; a raised value is an instance of
    Python's [Exception], which is what a failing reader call produces and
    what the handler of the loader names. *)
Definition exception : Type := string.

Section Program.

(** The opaque collaborators: documents produced by the reader, the index
    built from them, the engine derived from the index and the streaming
    response of a query. *)
Context {Document Index Engine Response : Type}.

Inductive event : Type :=
| EvCompleted (future_id : nat)
    (** the [for] loop received this future from [as_completed] *)
| EvPrint (text : string)
    (** [print(text)]: the text and a line terminator on standard output *)
| EvEmbedModel (model : string)
    (** [Settings.embed_model = HuggingFaceEmbedding(model_name=model)] *)
| EvLlm (model : string) (request_timeout : nat)
    (** [Settings.llm = Ollama(model=..., request_timeout=...)] *)
| EvBuildIndex (documents : list Document)
    (** [VectorStoreIndex.from_documents(documents)] *)
| EvAsQueryEngine (streaming : bool) (similarity_top_k : nat)
    (** [index.as_query_engine(...)] *)
| EvInput (prompt line : string)
    (** [input(prompt)] returned [line] *)
| EvInputEOF (prompt : string)
    (** [input(prompt)] found standard input closed *)
| EvQuery (query : string)
    (** [query_engine.query(query)] *)
| EvStream (response : Response)
    (** [streaming_response.print_response_stream()] *).

(** How a block of statements ends: it runs to its end, or an exception
    leaves it. *)
Inductive completion (S : Type) : Type :=
| Normal (s : S)
| Escapes (e : exception) (s : S).
Arguments Normal {S} s.
Arguments Escapes {S} e s.

(** ** The parallel document loader *)

(** What a load task ends with: the reader's documents, or the exception
    it raised. *)
Inductive outcome : Type :=
| Returned (docs : list Document)
| Raised (e : exception).

(** The external reader: [SimpleDirectoryReader(directory).load_data()]. *)
Variable reader : string -> outcome.

Definition load_documents_from_single_directory (directory : string) : outcome :=
  reader directory.

(** A [Future] object: its identity and what [future.result()] gives once
    the task is done. *)
Record Future : Type := mkFuture { fut_id : nat; fut_result : outcome }.

(** [executor.submit(load_documents_from_single_directory, dir_path)] for
    the [i]-th submission. *)
Definition executor_submit (i : nat) (dir_path : string) : Future :=
  mkFuture i (load_documents_from_single_directory dir_path).

(** The dict comprehension [{executor.submit(...): dir_path for dir_path
    in dir_paths}], in insertion order. *)
Definition submit_all (dir_paths : list string) : list (Future * string) :=
  imap (fun i dir_path => (executor_submit i dir_path, dir_path)) dir_paths.

(** [future_to_dir[future]]: futures are hashed by identity; [None] is
    Python's [KeyError]. *)
Fixpoint dict_get (future_to_dir : list (Future * string)) (future : Future)
  : option string :=
  match future_to_dir with
  | [] => None
  | (k, v) :: rest =>
      if decide (fut_id k = fut_id future) then Some v
      else dict_get rest future
  end.

(** The loader's local state: the aggregate list, what has been emitted
    so far, and the progress bar's counter and total. *)
Record loader_state : Type := mkLoader {
  documents : list Document;
  trace : list event;
  pbar_n : nat;
  pbar_total : nat
}.

Definition error_line (directory : string) (e : exception) : string :=
  "Error loading documents from directory " +:+ directory +:+ ": " +:+ e.

(** The body of the [for] loop: the [try] with its [except Exception]. *)
Definition loop_body (future_to_dir : list (Future * string))
    (st : loader_state) (future : Future) : completion loader_state :=
  let st := mkLoader (documents st) (trace st ++ [EvCompleted (fut_id future)])
                     (pbar_n st) (pbar_total st) in
  match fut_result future with
  | Returned docs =>
      Normal (mkLoader (documents st ++ docs) (trace st)
                       (pbar_n st) (pbar_total st))
  | Raised e =>
      match dict_get future_to_dir future with
      | Some directory =>
          Normal (mkLoader (documents st)
                           (trace st ++ [EvPrint (error_line directory e)])
                           (pbar_n st) (pbar_total st))
      | None => Escapes "KeyError" st
      end
  end.

(** [tqdm] counts an item once the loop body has finished with it. *)
Definition pbar_update (st : loader_state) : loader_state :=
  mkLoader (documents st) (trace st) (S (pbar_n st)) (pbar_total st).

(** [for future in tqdm(as_completed(future_to_dir), ...)], over the
    futures in the order in which [as_completed] yields them. *)
Fixpoint for_as_completed (future_to_dir : list (Future * string))
    (order : list Future) (st : loader_state) : completion loader_state :=
  match order with
  | [] => Normal st
  | future :: rest =>
      match loop_body future_to_dir st future with
      | Normal st' => for_as_completed future_to_dir rest (pbar_update st')
      | Escapes e st' => Escapes e st'
      end
  end.

(** The order in which [as_completed] hands the futures to the loop is
    not fixed by the program (it depends on the thread scheduler and on
    the library): [as_completed] yields every future of the dict once. *)
Definition scheduler : Type := list Future -> list Future.

Definition fair (as_completed : scheduler) (futures : list Future) : Prop :=
  as_completed futures ≡ₚ futures.

(** [load_documents_from_directory(directory)]; the result is the state
    at the [return], of which [documents] is the returned list. *)
Definition load_documents_from_directory (fs : filesystem)
    (as_completed : scheduler) (directory : string)
  : completion loader_state :=
  let dir_paths := get_all_directories fs directory in
  let future_to_dir := submit_all dir_paths in
  for_as_completed future_to_dir
    (as_completed (map fst future_to_dir))
    (mkLoader [] [] 0 (length future_to_dir)).

(** The per-directory results the reader returns over a list of
    directories, failures contributing nothing. *)
Definition successful_results (dir_paths : list string) : list Document :=
  flat_map (fun d => match reader d with Returned docs => docs | Raised _ => [] end)
           dir_paths.

(** The diagnostics due over a list of directories, one per failure. *)
Definition diagnostics (dir_paths : list string) : list string :=
  flat_map (fun d => match reader d with
                     | Raised e => [error_line d e]
                     | Returned _ => []
                     end) dir_paths.

(** The texts written by [print], in order. *)
Definition printed (tr : list event) : list string :=
  flat_map (fun ev => match ev with EvPrint s => [s] | _ => [] end) tr.

(** The futures the loop has received, in order. *)
Definition completed_ids (tr : list event) : list nat :=
  flat_map (fun ev => match ev with EvCompleted i => [i] | _ => [] end) tr.

(** What one completed future adds to the aggregate list and to the
    trace. *)
Definition future_docs (future : Future) : list Document :=
  match fut_result future with
  | Returned docs => docs
  | Raised _ => []
  end.

Definition future_events (future_to_dir : list (Future * string))
    (future : Future) : list event :=
  EvCompleted (fut_id future) ::
  match fut_result future with
  | Returned _ => []
  | Raised e =>
      [EvPrint (error_line (default "" (dict_get future_to_dir future)) e)]
  end.

(** ** [main]: index construction and the interactive loop *)

(** [VectorStoreIndex.from_documents], [index.as_query_engine] and
    [query_engine.query]. *)
Variable from_documents : list Document -> Index.
Variable as_query_engine : Index -> bool -> nat -> Engine.
Variable engine_query : Engine -> string -> Response.

Definition prompt : string := "Enter your query (or type 'exit' to quit): ".

(** Where one pass through the body of [while True] leaves the loop:
    back at the prompt, or out of the loop through [break]. *)
Inductive loop_state : Type :=
| AWAITING_INPUT
| TERMINATED.

(** One pass through the loop body, [input(...)] having returned
    [query]. *)
Definition loop_iteration (query_engine : Engine) (query : string)
  : list event * loop_state :=
  if String.eqb (Str.lower query) "exit" then
    ([EvInput prompt query], TERMINATED)
  else
    let streaming_response := engine_query query_engine query in
    ([EvInput prompt query; EvQuery query; EvStream streaming_response;
      EvPrint ""], AWAITING_INPUT).

(** [while True: ...] over the lines that standard input holds; when
    they run out [input] raises [EOFError], which nothing catches. *)
Fixpoint interactive_loop (query_engine : Engine) (stdin : list string)
  : completion (list event) :=
  match stdin with
  | [] => Escapes "EOFError" [EvInputEOF prompt]
  | query :: rest =>
      match loop_iteration query_engine query with
      | (evs, TERMINATED) => Normal evs
      | (evs, AWAITING_INPUT) =>
          match interactive_loop query_engine rest with
          | Normal evs' => Normal (evs ++ evs')
          | Escapes e evs' => Escapes e (evs ++ evs')
          end
      end
  end.

(** The events of the four statements between loading and the loop. *)
Definition setup_events (model_name : string) (docs : list Document)
  : list event :=
  [EvEmbedModel "BAAI/bge-base-en-v1.5"; EvLlm model_name 360;
   EvBuildIndex docs; EvAsQueryEngine true 5].

(** [main(data_folder, model_name)], with the events of the whole run. *)
Definition main (fs : filesystem) (as_completed : scheduler)
    (data_folder model_name : string) (stdin : list string)
  : completion (list event) :=
  match load_documents_from_directory fs as_completed data_folder with
  | Escapes e st => Escapes e (trace st)
  | Normal st =>
      let docs := documents st in
      let index := from_documents docs in
      let query_engine := as_query_engine index true 5 in
      match interactive_loop query_engine stdin with
      | Normal evs =>
          Normal (trace st ++ setup_events model_name docs ++ evs)
      | Escapes e evs =>
          Escapes e (trace st ++ setup_events model_name docs ++ evs)
      end
  end.

Definition events_of (c : completion (list event)) : list event :=
  match c with
  | Normal evs => evs
  | Escapes _ evs => evs
  end.

Definition is_build (ev : event) : bool :=
  match ev with EvBuildIndex _ => true | _ => false end.

Definition is_query (ev : event) : bool :=
  match ev with EvQuery _ => true | _ => false end.

Definition is_completed (ev : event) : bool :=
  match ev with EvCompleted _ => true | _ => false end.

End Program.

Arguments Normal {S} s.
Arguments Escapes {S} e s.

(** ** A sample run

    The data folder holds one file and two directories; reading [data/b]
    fails.  [as_completed] yields the futures in the reverse of the
    submission order. *)
Module Sample.

Definition listing : list entry :=
  [File "notes.txt"; Dir "a" [File "1.txt"; File "2.txt"]; Dir "b" []].

(** A deeper tree, for the order in which the walk visits directories. *)
Definition nested : list entry :=
  [File "top.txt"; Dir "a" [File "x"; Dir "c" []]; Dir "b" [Dir "d" [File "y"]]].

Definition fs : filesystem :=
  fun p => if String.eqb p "data" then Some listing
           else if String.eqb p "flat" then Some [File "notes.txt"]
           else if String.eqb p "tree/" then Some nested
           else None.

Definition reader : string -> @outcome string :=
  fun d => if String.eqb d "data/a" then Returned ["1.txt"; "2.txt"]
           else if String.eqb d "data/b"
                then Raised "[Errno 13] Permission denied: 'data/b'"
           else Returned [d].

(** A reader that finds documents everywhere. *)
Definition reader_ok : string -> @outcome string :=
  fun d => Returned [d +:+ "/doc"].

Definition result_ok (d : string) : list string := [d +:+ "/doc"].

Definition result (d : string) : list string :=
  if String.eqb d "data/a" then ["1.txt"; "2.txt"] else [d].

Definition as_completed : @scheduler string := @rev _.

Definition in_order : @scheduler string := fun futures => futures.

Definition from_documents (docs : list string) : list string := docs.

Definition as_query_engine (index : list string) (streaming : bool)
    (similarity_top_k : nat) : list string :=
  take similarity_top_k index.

Definition engine_query (query_engine : list string) (query : string)
  : string :=
  query +:+ "?".

End Sample.

(** ** Further notions: sizes, pruned trees, the loop's exchanges *)

(** The number of directories in a listing, at every depth. *)
Fixpoint count_dirs_entry (e : entry) : nat :=
  match e with
  | File _ => 0
  | Dir _ cs => S (sum_list (map count_dirs_entry cs))
  end.

Definition count_dirs (cs : list entry) : nat :=
  sum_list (map count_dirs_entry cs).

(** A listing with every plain file removed, at every depth. *)
Fixpoint prune_entry (e : entry) : list entry :=
  match e with
  | File _ => []
  | Dir n cs => [Dir n (flat_map prune_entry cs)]
  end.

Definition prune (cs : list entry) : list entry := flat_map prune_entry cs.

Section Exchanges.

Context {Document Engine Response : Type}.
Variable reader : string -> @outcome Document.
Variable engine_query : Engine -> string -> Response.

(** Whether the reader raises on a directory. *)
Definition failing (d : string) : bool :=
  match reader d with
  | Raised _ => true
  | Returned _ => false
  end.

(** The events of one pass of the loop that ends back at the prompt. *)
Definition exchange (query_engine : Engine) (query : string)
  : list (@event Document Response) :=
  [EvInput prompt query; EvQuery query;
   EvStream (engine_query query_engine query); EvPrint ""].

(** The strings handed to the engine, in order. *)
Definition queries (tr : list (@event Document Response)) : list string :=
  flat_map (fun ev => match ev with EvQuery q => [q] | _ => [] end) tr.

End Exchanges.

(** A file system holding the nested sample tree, reachable as [tree] and
    as [tree/], with its first level of directories, and the same tree
    without its files as [bare]. *)
Module Tree.

Definition fs : filesystem :=
  fun p => if String.eqb p "tree" then Some Sample.nested
           else if String.eqb p "tree/" then Some Sample.nested
           else if String.eqb p "tree/a" then Some [File "x"; Dir "c" []]
           else if String.eqb p "tree/b" then Some [Dir "d" [File "y"]]
           else if String.eqb p "bare" then Some (prune Sample.nested)
           else None.

(** A reader that fails everywhere. *)
Definition reader_bad : string -> @outcome string :=
  fun d => Raised ("No files found in " +:+ d).

End Tree.

(** ** The sample run, evaluated *)

Example os_path_join_plain : os_path_join "data" "a" = "data/a".
Proof. reflexivity. Qed.

Example os_path_join_trailing_sep : os_path_join "data/" "a" = "data/a".
Proof. reflexivity. Qed.

Example os_path_join_empty : os_path_join "" "a" = "a".
Proof. reflexivity. Qed.

Example os_path_join_absolute : os_path_join "data" "/srv" = "/srv".
Proof. reflexivity. Qed.

Example os_walk_nested :
  os_walk Sample.fs "tree/" =
    [("tree/", ["a"; "b"], ["top.txt"]); ("tree/a", ["c"], ["x"]);
     ("tree/a/c", [], []); ("tree/b", ["d"], []); ("tree/b/d", [], ["y"])].
Proof. reflexivity. Qed.

Example get_all_directories_nested :
  get_all_directories Sample.fs "tree/" =
    ["tree/a"; "tree/b"; "tree/a/c"; "tree/b/d"].
Proof. reflexivity. Qed.

Example get_all_directories_data :
  get_all_directories Sample.fs "data" = ["data/a"; "data/b"].
Proof. reflexivity. Qed.

Example lower_mixed : Str.lower "ExIT [z]" = "exit [z]".
Proof. reflexivity. Qed.

Example load_sample :
  load_documents_from_directory (Response := string) Sample.reader Sample.fs
    Sample.as_completed "data" =
  Normal {| documents := ["1.txt"; "2.txt"];
            trace := [EvCompleted 1;
                      EvPrint "Error loading documents from directory data/b: [Errno 13] Permission denied: 'data/b'";
                      EvCompleted 0];
            pbar_n := 2;
            pbar_total := 2 |}.
Proof. reflexivity. Qed.

Example main_sample :
  main Sample.reader Sample.from_documents Sample.as_query_engine
    Sample.engine_query Sample.fs Sample.in_order "data" "llama3"
    ["hi"; ""; "Exit"; "late"] =
  Normal [EvCompleted 0; EvCompleted 1;
          EvPrint "Error loading documents from directory data/b: [Errno 13] Permission denied: 'data/b'";
          EvEmbedModel "BAAI/bge-base-en-v1.5"; EvLlm "llama3" 360;
          EvBuildIndex ["1.txt"; "2.txt"]; EvAsQueryEngine true 5;
          EvInput prompt "hi"; EvQuery "hi"; EvStream "hi?"; EvPrint "";
          EvInput prompt ""; EvQuery ""; EvStream "?"; EvPrint "";
          EvInput prompt "Exit"].
Proof. reflexivity. Qed.

Example main_stdin_closed :
  main Sample.reader Sample.from_documents Sample.as_query_engine
    Sample.engine_query Sample.fs Sample.in_order "nowhere" "llama3" [] =
  Escapes "EOFError"
    [EvEmbedModel "BAAI/bge-base-en-v1.5"; EvLlm "llama3" 360;
     EvBuildIndex []; EvAsQueryEngine true 5; EvInputEOF prompt].
Proof. reflexivity. Qed.

(** ** String facts used by the path arguments *)

Module StrFacts.

Lemma app_nil_l (t : string) : "" +:+ t = t.
Proof. reflexivity. Qed.

Lemma app_cons (a : ascii) (s t : string) :
  String a s +:+ t = String a (s +:+ t).
Proof. reflexivity. Qed.

Lemma app_assoc (s t u : string) : (s +:+ t) +:+ u = s +:+ (t +:+ u).
Proof.
  induction s as [|a s IH]; [reflexivity|].
  rewrite !app_cons. by rewrite IH.
Qed.

Lemma app_nil_r (s : string) : s +:+ "" = s.
Proof.
  induction s as [|a s IH]; [reflexivity|].
  rewrite app_cons. by rewrite IH.
Qed.

Lemma length_app (s t : string) :
  String.length (s +:+ t) = String.length s + String.length t.
Proof.
  induction s as [|a s IH]; [reflexivity|].
  rewrite app_cons. simpl. by rewrite IH.
Qed.

Lemma is_empty_app (s t : string) :
  Str.is_empty (s +:+ t) = Str.is_empty s && Str.is_empty t.
Proof. by destruct s. Qed.

Lemma endswith_app (c : ascii) (s t : string) :
  Str.is_empty t = false ->
  Str.endswith c (s +:+ t) = Str.endswith c t.
Proof.
  intros Ht. induction s as [|a s IH]; [reflexivity|].
  rewrite app_cons. simpl. rewrite IH.
  destruct (s +:+ t) eqn:E; [|done].
  destruct s; [|done]. rewrite app_nil_l in E. by subst t.
Qed.

Lemma endswith_contains (c : ascii) (s : string) :
  Str.endswith c s = true -> Str.contains c s = true.
Proof.
  induction s as [|a s IH]; [done|].
  simpl. destruct s as [|b s].
  - intros ->. done.
  - intros H. rewrite (IH H). by rewrite orb_true_r.
Qed.

(** Two separator-free names followed by tails agree as soon as the
    whole strings agree. *)
Lemma name_tail_inj (n m r r' : string) :
  Str.contains sep n = false -> Str.contains sep m = false ->
  tail_ok r -> tail_ok r' ->
  n +:+ r = m +:+ r' -> n = m ∧ r = r'.
Proof.
  revert m. induction n as [|a n IH]; intros [|b m] Hn Hm Hr Hr' E.
  - done.
  - rewrite app_nil_l, app_cons in E. subst r.
    destruct Hr as [?|Hr]; [done|]. simpl in Hr, Hm.
    apply bool_decide_eq_true in Hr. subst b.
    by rewrite bool_decide_eq_true_2 in Hm.
  - rewrite app_nil_l, app_cons in E. subst r'.
    destruct Hr' as [?|Hr']; [done|]. simpl in Hr', Hn.
    apply bool_decide_eq_true in Hr'. subst a.
    by rewrite bool_decide_eq_true_2 in Hn.
  - rewrite !app_cons in E. injection E as -> E. simpl in Hn, Hm.
    apply orb_false_elim in Hn as [_ Hn].
    apply orb_false_elim in Hm as [_ Hm].
    destruct (IH m Hn Hm Hr Hr' E) as [-> ->]. done.
Qed.

End StrFacts.

(** ** The directory enumerator *)

Module Enumerator.
Import StrFacts.

(** Induction over a listing, with the claim available for the listing
    of every directory it holds. *)
Lemma listing_ind (P : list entry -> Prop) :
  (∀ cs, (∀ n sub, Dir n sub ∈ cs -> P sub) -> P cs) -> ∀ cs, P cs.
Proof.
  intros H.
  assert (∀ e, match e with File _ => True | Dir _ sub => P sub end) as HE.
  { fix IH 1. intros [n|n sub]; [exact I|].
    apply H. intros m sub' Hin.
    assert (Forall (fun e => match e with File _ => True | Dir _ s => P s end) sub)
      as HF.
    { clear Hin. induction sub as [|e sub IHsub]; constructor;
        [apply IH | apply IHsub]. }
    rewrite Forall_forall in HF. apply (HF (Dir m sub') Hin). }
  intros cs. apply H. intros n sub _. apply (HE (Dir n sub)).
Qed.

Lemma elem_of_flat_map {A B} (f : A -> list B) (l : list A) (x : B) :
  x ∈ flat_map f l ↔ ∃ y, y ∈ l ∧ x ∈ f y.
Proof.
  rewrite list_elem_of_In, in_flat_map.
  split; intros (y & Hy & Hx); exists y; by rewrite ?list_elem_of_In in *.
Qed.

Lemma flat_map_flat_map {A B C} (f : A -> list B) (g : B -> list C) l :
  flat_map g (flat_map f l) = flat_map (fun x => flat_map g (f x)) l.
Proof.
  induction l as [|x l IH]; [done|].
  simpl. by rewrite flat_map_app, IH.
Qed.

Lemma flat_map_ext_eq {A B} (f g : A -> list B) (l : list A) :
  (∀ x, f x = g x) -> flat_map f l = flat_map g l.
Proof. intros H. apply flat_map_ext. exact H. Qed.

Lemma elem_of_dirnames (n : string) (cs : list entry) :
  n ∈ dirnames cs ↔ ∃ sub, Dir n sub ∈ cs.
Proof.
  unfold dirnames. rewrite elem_of_flat_map. split.
  - intros ([m|m sub] & Hin & Hn); [by apply elem_of_nil in Hn|].
    apply list_elem_of_singleton in Hn as ->. by exists sub.
  - intros (sub & Hin). exists (Dir n sub). split; [done|].
    by apply list_elem_of_singleton.
Qed.

Lemma get_all_directories_some fs directory cs :
  fs directory = Some cs ->
  get_all_directories fs directory = dirs_below directory cs.
Proof. intros H. unfold get_all_directories, os_walk. by rewrite H. Qed.

Lemma get_all_directories_none fs directory :
  fs directory = None -> get_all_directories fs directory = [].
Proof. intros H. unfold get_all_directories, os_walk. by rewrite H. Qed.

(** The collected list, level by level: the directories listed in [top],
    then what every listed directory contributes in turn. *)
Lemma dirs_below_unfold top cs :
  dirs_below top cs =
    map (os_path_join top) (dirnames cs) ++
    flat_map (fun e => match e with
                       | Dir n sub => dirs_below (os_path_join top n) sub
                       | File _ => []
                       end) cs.
Proof.
  unfold dirs_below at 1. simpl. f_equal.
  rewrite flat_map_flat_map. apply flat_map_ext.
  by intros [n|n sub].
Qed.

Lemma elem_of_dirs_below top cs p :
  p ∈ dirs_below top cs ↔ subdirectory top cs p.
Proof.
  revert top p. induction cs as [cs IH] using listing_ind. intros top p.
  rewrite dirs_below_unfold, elem_of_app, elem_of_flat_map. split.
  - intros [Hp|(e & He & Hp)].
    + apply list_elem_of_fmap in Hp as (n & -> & Hn).
      apply elem_of_dirnames in Hn as (sub & Hsub).
      by eapply subdir_child.
    + destruct e as [n|n sub]; [by apply elem_of_nil in Hp|].
      eapply subdir_nested; [done|]. by eapply IH.
  - intros [n sub Hin|n sub q Hin Hq].
    + left. apply list_elem_of_fmap. exists n. split; [done|].
      apply elem_of_dirnames. by exists sub.
    + right. exists (Dir n sub). split; [done|]. by eapply IH.
Qed.

(** *** Paths of listed names *)

Lemma valid_name_inv n :
  valid_name n = true ->
  Str.is_empty n = false ∧ Str.contains sep n = false ∧
  Str.startswith sep n = false ∧ Str.endswith sep n = false.
Proof.
  unfold valid_name. intros [He Hc]%andb_true_iff.
  apply negb_true_iff in He, Hc. repeat split; [done..| |].
  - destruct n as [|a n]; [done|]. simpl in *.
    by apply orb_false_elim in Hc as [? _].
  - destruct (Str.endswith sep n) eqn:E; [|done].
    apply endswith_contains in E. congruence.
Qed.

Lemma join_valid top n :
  valid_name n = true -> os_path_join top n = path_prefix top +:+ n.
Proof.
  intros (_ & _ & Hs & _)%valid_name_inv.
  unfold os_path_join, path_prefix. rewrite Hs.
  destruct (Str.is_empty top || Str.endswith sep top); [done|].
  by rewrite app_assoc.
Qed.

Lemma path_prefix_app top n :
  valid_name n = true ->
  path_prefix (path_prefix top +:+ n) =
    path_prefix top +:+ n +:+ String sep "".
Proof.
  intros (He & _ & _ & Hend)%valid_name_inv.
  unfold path_prefix at 1.
  rewrite is_empty_app, He, andb_false_r, (endswith_app _ _ _ He), Hend.
  simpl. by rewrite app_assoc.
Qed.

Lemma length_path_prefix top :
  String.length top ≤ String.length (path_prefix top).
Proof.
  unfold path_prefix.
  destruct (Str.is_empty top || Str.endswith sep top); [done|].
  rewrite length_app. lia.
Qed.

(** *** Well-formed listings *)

Lemma wf_listing_inv cs :
  wf_listing cs = true ->
  NoDup (map entry_name cs) ∧
  (∀ n, File n ∈ cs -> valid_name n = true) ∧
  (∀ n sub, Dir n sub ∈ cs -> valid_name n = true ∧ wf_listing sub = true).
Proof.
  unfold wf_listing. intros [Hnd Hall]%andb_true_iff.
  apply bool_decide_eq_true in Hnd. rewrite forallb_forall in Hall.
  split; [done|]. split.
  - intros n Hin%list_elem_of_In. apply Hall in Hin. simpl in Hin.
    by apply andb_true_iff in Hin as [? _].
  - intros n sub Hin%list_elem_of_In. apply Hall in Hin. simpl in Hin.
    by apply andb_true_iff in Hin as [? ?].
Qed.

Lemma same_name_same_entry cs e1 e2 :
  NoDup (map entry_name cs) -> e1 ∈ cs -> e2 ∈ cs ->
  entry_name e1 = entry_name e2 -> e1 = e2.
Proof.
  induction cs as [|e cs IH]; [by intros _ ?%elem_of_nil|].
  simpl. intros [Hnotin Hnd]%NoDup_cons.
  intros [->|H1]%elem_of_cons [->|H2]%elem_of_cons Heq; [done| | |by apply IH].
  - destruct Hnotin. rewrite Heq. apply list_elem_of_fmap. by exists e2.
  - destruct Hnotin. rewrite <-Heq. apply list_elem_of_fmap. by exists e1.
Qed.

Lemma NoDup_dirnames cs : NoDup (map entry_name cs) -> NoDup (dirnames cs).
Proof.
  induction cs as [|e cs IH]; [constructor|].
  simpl. intros [Hnotin Hnd]%NoDup_cons. destruct e as [n|n sub]; simpl.
  - by apply IH.
  - apply NoDup_cons. split; [|by apply IH].
    intros (sub' & Hin)%elem_of_dirnames. apply Hnotin.
    apply list_elem_of_fmap. by exists (Dir n sub').
Qed.

Lemma NoDup_flat_map {A B} (f : A -> list B) (l : list A) :
  NoDup l ->
  (∀ x, x ∈ l -> NoDup (f x)) ->
  (∀ x y z, x ∈ l -> y ∈ l -> z ∈ f x -> z ∈ f y -> x = y) ->
  NoDup (flat_map f l).
Proof.
  induction l as [|a l IH]; [constructor|].
  intros [Ha Hl]%NoDup_cons Hf Hdisj. simpl. apply NoDup_app.
  split; [apply Hf; left|]. split.
  - intros z Hz (y & Hy & Hzy)%elem_of_flat_map.
    assert (a = y) as -> by (eapply Hdisj; [left|by right|done..]).
    done.
  - apply IH; [done|..].
    + intros x Hx. apply Hf. by right.
    + intros x y z Hx Hy. apply Hdisj; by right.
Qed.

(** *** The shape of the collected paths *)

Lemma subdirectory_shape top cs p :
  wf_listing cs = true -> subdirectory top cs p ->
  ∃ n sub r, Dir n sub ∈ cs ∧ p = path_prefix top +:+ n +:+ r ∧
    (r = "" ∨ (Str.startswith sep r = true ∧
               subdirectory (os_path_join top n) sub p)).
Proof.
  intros Hwf Hp. revert Hwf.
  induction Hp as [top cs n sub Hin|top cs n sub p Hin Hp IH]; intros Hwf.
  - exists n, sub, "". split; [done|].
    destruct (wf_listing_inv _ Hwf) as (_ & _ & Hd).
    destruct (Hd _ _ Hin) as [Hn _].
    rewrite app_nil_r. split; [by apply join_valid|by left].
  - destruct (wf_listing_inv _ Hwf) as (_ & _ & Hd).
    destruct (Hd _ _ Hin) as [Hn Hsub].
    destruct (IH Hsub) as (n' & sub' & r' & _ & -> & _).
    exists n, sub, (String sep (n' +:+ r')). split; [done|]. split.
    + rewrite (join_valid _ _ Hn), (path_prefix_app _ _ Hn).
      by rewrite !app_assoc.
    + right. split; [by apply bool_decide_eq_true_2|].
      rewrite (join_valid _ _ Hn), (path_prefix_app _ _ Hn) in Hp |- *.
      by rewrite !app_assoc in Hp |- *.
Qed.

Lemma file_path_shape top cs p :
  wf_listing cs = true -> file_path top cs p ->
  ∃ n r, p = path_prefix top +:+ n +:+ r ∧
    ((File n ∈ cs ∧ r = "") ∨
     (∃ sub, Dir n sub ∈ cs ∧ Str.startswith sep r = true ∧
             file_path (os_path_join top n) sub p)).
Proof.
  intros Hwf Hp. revert Hwf.
  induction Hp as [top cs n Hin|top cs n sub p Hin Hp IH]; intros Hwf.
  - exists n, "". destruct (wf_listing_inv _ Hwf) as (_ & Hf & _).
    rewrite app_nil_r. split; [by apply join_valid, Hf|by left].
  - destruct (wf_listing_inv _ Hwf) as (_ & _ & Hd).
    destruct (Hd _ _ Hin) as [Hn Hsub].
    destruct (IH Hsub) as (n' & r' & -> & _).
    exists n, (String sep (n' +:+ r')). split.
    + rewrite (join_valid _ _ Hn), (path_prefix_app _ _ Hn).
      by rewrite !app_assoc.
    + right. exists sub. split; [done|].
      split; [by apply bool_decide_eq_true_2|].
      rewrite (join_valid _ _ Hn), (path_prefix_app _ _ Hn) in Hp |- *.
      by rewrite !app_assoc in Hp |- *.
Qed.

(** Everything collected below a listed directory [m] extends the path
    of [m] by a separator. *)
Lemma below_shape top cs m sub x :
  wf_listing cs = true -> Dir m sub ∈ cs ->
  subdirectory (os_path_join top m) sub x ->
  ∃ r, x = path_prefix top +:+ m +:+ r ∧ Str.startswith sep r = true.
Proof.
  intros Hwf Hin Hx.
  destruct (wf_listing_inv _ Hwf) as (_ & _ & Hd).
  destruct (Hd _ _ Hin) as [Hm Hsub].
  destruct (subdirectory_shape _ _ _ Hsub Hx) as (n & _ & r & _ & -> & _).
  exists (String sep (n +:+ r)). split; [|by apply bool_decide_eq_true_2].
  rewrite (join_valid _ _ Hm), (path_prefix_app _ _ Hm).
  by rewrite !app_assoc.
Qed.

Lemma subdirectory_not_file top cs p :
  wf_listing cs = true -> subdirectory top cs p -> ¬ file_path top cs p.
Proof.
  revert top p. induction cs as [cs IH] using listing_ind.
  intros top p Hwf Hd Hf.
  destruct (wf_listing_inv _ Hwf) as (Hnd & Hfiles & Hdirs).
  destruct (subdirectory_shape _ _ _ Hwf Hd)
    as (n & sub & r & Hin & Hp & Hr).
  destruct (file_path_shape _ _ _ Hwf Hf) as (m & r' & Hp' & Hr').
  rewrite Hp in Hp'. apply (inj _) in Hp'.
  destruct (Hdirs _ _ Hin) as [Hn Hsub].
  assert (valid_name m = true) as Hm.
  { destruct Hr' as [[? _]|(? & Hin' & _)]; [by apply Hfiles|].
    by destruct (Hdirs _ _ Hin'). }
  apply valid_name_inv in Hn as (_ & Hn & _ & _).
  apply valid_name_inv in Hm as (_ & Hm & _ & _).
  assert (tail_ok r) as Htr by (destruct Hr as [?|[? _]]; [by left|by right]).
  assert (tail_ok r') as Htr'.
  { destruct Hr' as [[_ ?]|(? & _ & ? & _)]; [by left|by right]. }
  destruct (name_tail_inj _ _ _ _ Hn Hm Htr Htr' Hp') as [<- <-].
  destruct Hr as [->|[Hs Hd']], Hr' as [[Hin' Hr']|(sub' & Hin' & Hs' & Hf')].
  - by pose proof (same_name_same_entry _ _ _ Hnd Hin Hin' eq_refl).
  - done.
  - by subst r.
  - pose proof (same_name_same_entry _ _ _ Hnd Hin Hin' eq_refl) as [= <-].
    by eapply IH.
Qed.

Lemma NoDup_dirs_below top cs :
  wf_listing cs = true -> NoDup (dirs_below top cs).
Proof.
  revert top. induction cs as [cs IH] using listing_ind. intros top Hwf.
  destruct (wf_listing_inv _ Hwf) as (Hnd & Hfiles & Hdirs).
  rewrite dirs_below_unfold. apply NoDup_app. split; [|split].
  - apply NoDup_fmap_2_strong; [|by apply NoDup_dirnames].
    intros n m (? & Hn)%elem_of_dirnames (? & Hm)%elem_of_dirnames.
    destruct (Hdirs _ _ Hn) as [Hvn _], (Hdirs _ _ Hm) as [Hvm _].
    rewrite !join_valid by done. by intros ?%(inj _).
  - intros x (n & -> & (sub & Hn)%elem_of_dirnames)%list_elem_of_fmap.
    intros ([m|m sub'] & Hm & Hx)%elem_of_flat_map;
      [by apply elem_of_nil in Hx|].
    apply elem_of_dirs_below in Hx.
    destruct (below_shape _ _ _ _ _ Hwf Hm Hx) as (r & Hx' & Hr).
    destruct (Hdirs _ _ Hn) as [Hvn _], (Hdirs _ _ Hm) as [Hvm _].
    rewrite (join_valid _ _ Hvn), <-(app_nil_r n) in Hx'.
    apply (inj _) in Hx'.
    apply valid_name_inv in Hvn as (_ & Hvn & _ & _).
    apply valid_name_inv in Hvm as (_ & Hvm & _ & _).
    destruct (name_tail_inj n m "" r) as [_ <-];
      [done|done|by left|by right|done|done].
  - apply NoDup_flat_map.
    + by eapply NoDup_fmap_1.
    + intros [n|n sub] Hin; [constructor|].
      apply (IH _ _ Hin). by destruct (Hdirs _ _ Hin).
    + intros [n|n sub] [m|m sub'] z Hx Hy Hzx Hzy;
        try (by apply elem_of_nil in Hzx); try (by apply elem_of_nil in Hzy).
      apply elem_of_dirs_below in Hzx, Hzy.
      destruct (below_shape _ _ _ _ _ Hwf Hx Hzx) as (r & -> & Hr).
      destruct (below_shape _ _ _ _ _ Hwf Hy Hzy) as (r' & Hz & Hr').
      apply (inj _) in Hz.
      destruct (Hdirs _ _ Hx) as [Hvn _], (Hdirs _ _ Hy) as [Hvm _].
      apply valid_name_inv in Hvn as (_ & Hvn & _ & _).
      apply valid_name_inv in Hvm as (_ & Hvm & _ & _).
      destruct (name_tail_inj n m r r') as [<- _];
        [done|done|by right|by right|done|].
      by eapply same_name_same_entry.
Qed.

(** The walked root is strictly shorter than every collected path. *)
Lemma subdirectory_longer top cs p :
  wf_listing cs = true -> subdirectory top cs p ->
  String.length top < String.length p.
Proof.
  intros Hwf Hp.
  destruct (subdirectory_shape _ _ _ Hwf Hp) as (n & sub & r & Hin & -> & _).
  destruct (wf_listing_inv _ Hwf) as (_ & _ & Hd).
  destruct (Hd _ _ Hin) as [(He & _)%valid_name_inv _].
  rewrite !length_app. pose proof (length_path_prefix top).
  destruct n; [done|]. simpl. lia.
Qed.

Lemma dirnames_nil_no_dir cs :
  dirnames cs = [] -> ∀ n sub, Dir n sub ∉ cs.
Proof.
  intros H n sub Hin.
  assert (n ∈ dirnames cs) as Hn by (apply elem_of_dirnames; by exists sub).
  rewrite H in Hn. by apply elem_of_nil in Hn.
Qed.

End Enumerator.

(** ** The parallel loader *)

Section LoaderFacts.

Context {Document Response : Type}.
Variable reader : string -> @outcome Document.

Lemma dict_get_imap (g : nat -> nat) (l : list string) i d :
  Inj (=) (=) g -> l !! i = Some d ->
  dict_get (imap (fun j x => (executor_submit reader (g j) x, x)) l)
           (executor_submit reader (g i) d) = Some d.
Proof.
  revert g i. induction l as [|x l IH]; intros g i Hg Hi; [done|].
  rewrite imap_cons. simpl. destruct i as [|i]; simpl in Hi.
  - injection Hi as ->. by rewrite decide_True.
  - rewrite decide_False by (intros Heq; by apply (inj g) in Heq).
    apply (IH (g ∘ S) i); [|done].
    intros a b Hab. apply (inj g) in Hab. by injection Hab.
Qed.

Lemma dict_get_submitted (dir_paths : list string) i d :
  dir_paths !! i = Some d ->
  dict_get (submit_all reader dir_paths) (executor_submit reader i d) = Some d.
Proof. intros H. exact (dict_get_imap id dir_paths i d _ H). Qed.

Lemma keys_submitted (dir_paths : list string) :
  map fst (submit_all reader dir_paths) =
    imap (executor_submit reader) dir_paths.
Proof.
  unfold submit_all.
  change (map fst ?l) with (fst <$> l). rewrite fmap_imap.
  by apply imap_ext.
Qed.

Lemma key_in_dict (dir_paths : list string) future :
  future ∈ map fst (submit_all reader dir_paths) ->
  is_Some (dict_get (submit_all reader dir_paths) future).
Proof.
  rewrite keys_submitted. intros (i & d & -> & Hi)%elem_of_lookup_imap.
  exists d. by apply dict_get_submitted.
Qed.

(** The loop in closed form: as long as every future it is given is a
    key of the dict, no exception leaves it. *)
Lemma for_as_completed_run future_to_dir (order : list Future)
    (st : @loader_state Document Response) :
  (∀ future, future ∈ order -> is_Some (dict_get future_to_dir future)) ->
  for_as_completed future_to_dir order st =
    Normal (mkLoader
              (documents st ++ flat_map future_docs order)
              (trace st ++ flat_map (future_events future_to_dir) order)
              (pbar_n st + length order)
              (pbar_total st)).
Proof.
  revert st. induction order as [|future order IH]; intros st Hkeys.
  - simpl. rewrite !app_nil_r, Nat.add_0_r. by destruct st.
  - simpl. unfold loop_body, future_docs at 1, future_events at 1. simpl.
    destruct (Hkeys future) as [d Hd]; [by left|].
    destruct (fut_result future) as [docs|e]; [|rewrite Hd];
      (rewrite IH by (intros ??; apply Hkeys; by right));
      simpl; rewrite <-?app_assoc; simpl; f_equal; f_equal; lia.
Qed.

Lemma flat_map_imap_lookup {A B C} (f : nat -> A -> B) (g : B -> list C)
    (h : A -> list C) (l : list A) :
  (∀ i x, l !! i = Some x -> g (f i x) = h x) ->
  flat_map g (imap f l) = flat_map h l.
Proof.
  revert f. induction l as [|a l IH]; intros f H; [done|].
  rewrite imap_cons. simpl. rewrite (H 0 a) by done. f_equal.
  apply IH. intros i x Hi. by apply (H (S i)).
Qed.

Lemma flat_map_singleton {A B} (c : A -> B) (l : list A) :
  flat_map (fun x => [c x]) l = map c l.
Proof. induction l as [|a l IH]; [done|]. simpl. by rewrite IH. Qed.

Lemma docs_of_keys (dir_paths : list string) :
  flat_map future_docs (imap (executor_submit reader) dir_paths) =
    successful_results reader dir_paths.
Proof. by apply flat_map_imap_lookup. Qed.

Lemma diagnostics_of_keys (dir_paths : list string) :
  flat_map (fun future =>
              printed (Response := Response)
                (future_events (submit_all reader dir_paths) future))
           (imap (executor_submit reader) dir_paths) =
    diagnostics reader dir_paths.
Proof.
  apply flat_map_imap_lookup. intros i d Hi.
  unfold future_events. rewrite (dict_get_submitted _ _ _ Hi). simpl.
  unfold load_documents_from_single_directory. by destruct (reader d).
Qed.

Lemma completed_of_keys future_to_dir (dir_paths : list string) :
  flat_map (fun future =>
              completed_ids (Response := Response)
                (future_events future_to_dir future))
           (imap (executor_submit reader) dir_paths) =
    seq 0 (length dir_paths).
Proof.
  rewrite (Enumerator.flat_map_ext_eq _ (fun future => [fut_id future])).
  2:{ intros future. unfold future_events. by destruct (fut_result future). }
  rewrite flat_map_singleton.
  change (map fut_id ?l) with (fut_id <$> l). rewrite fmap_imap.
  rewrite <-(list_fmap_id (seq 0 (length dir_paths))).
  by rewrite <-imap_seq_0.
Qed.

Lemma printed_flat_map {A} (f : A -> list (@event Document Response)) l :
  printed (flat_map f l) = flat_map (fun x => printed (f x)) l.
Proof. unfold printed. by rewrite Enumerator.flat_map_flat_map. Qed.

Lemma completed_ids_flat_map {A}
    (f : A -> list (@event Document Response)) l :
  completed_ids (flat_map f l) = flat_map (fun x => completed_ids (f x)) l.
Proof. unfold completed_ids. by rewrite Enumerator.flat_map_flat_map. Qed.

Lemma future_events_quiet future_to_dir future :
  Forall (fun ev : @event Document Response =>
            is_build ev = false ∧ is_query ev = false)
         (future_events future_to_dir future).
Proof.
  unfold future_events. destruct (fut_result future); repeat constructor.
Qed.

Lemma successful_results_app (l k : list string) :
  successful_results reader (l ++ k) =
    successful_results reader l ++ successful_results reader k.
Proof. unfold successful_results. by rewrite flat_map_app. Qed.

Lemma diagnostics_app (l k : list string) :
  diagnostics reader (l ++ k) = diagnostics reader l ++ diagnostics reader k.
Proof. unfold diagnostics. by rewrite flat_map_app. Qed.

Lemma successful_results_ok (result : string -> list Document) l :
  (∀ d, d ∈ l -> reader d = Returned (result d)) ->
  successful_results reader l = flat_map result l.
Proof.
  induction l as [|d l IH]; intros H; [done|].
  simpl. rewrite (H d) by left. f_equal. apply IH.
  intros d' Hd'. apply H. by right.
Qed.

Lemma diagnostics_ok (result : string -> list Document) l :
  (∀ d, d ∈ l -> reader d = Returned (result d)) ->
  diagnostics reader l = [].
Proof.
  induction l as [|d l IH]; intros H; [done|].
  simpl. rewrite (H d) by left. simpl. apply IH.
  intros d' Hd'. apply H. by right.
Qed.

(** What a run of the loader over the enumerated directories leaves,
    whatever the completion order. *)
Lemma loader_run fs (as_completed : scheduler) directory :
  fair as_completed
       (map fst (submit_all reader (get_all_directories fs directory))) ->
  ∃ st : @loader_state Document Response,
    load_documents_from_directory reader fs as_completed directory = Normal st ∧
    documents st ≡ₚ
      successful_results reader (get_all_directories fs directory) ∧
    printed (trace st) ≡ₚ
      diagnostics reader (get_all_directories fs directory) ∧
    completed_ids (trace st) ≡ₚ
      seq 0 (length (get_all_directories fs directory)) ∧
    Forall (fun ev => is_build ev = false ∧ is_query ev = false) (trace st) ∧
    pbar_n st = length (get_all_directories fs directory) ∧
    pbar_total st = length (get_all_directories fs directory).
Proof.
  set (dir_paths := get_all_directories fs directory).
  intros Hfair. unfold load_documents_from_directory. fold dir_paths.
  unfold fair in Hfair. eexists. split.
  { apply for_as_completed_run. intros future Hin.
    apply key_in_dict. by rewrite <-Hfair. }
  simpl. repeat split.
  - rewrite Hfair, keys_submitted. by rewrite docs_of_keys.
  - rewrite printed_flat_map, Hfair, keys_submitted.
    by rewrite diagnostics_of_keys.
  - rewrite completed_ids_flat_map, Hfair, keys_submitted.
    by rewrite completed_of_keys.
  - apply Forall_flat_map, Forall_forall. intros future _.
    apply future_events_quiet.
  - rewrite Hfair, keys_submitted. by rewrite length_imap.
  - unfold submit_all. by rewrite length_imap.
Qed.

(** The loop over a list of futures in two parts: the second part starts
    from the state the first part leaves. *)
Lemma for_as_completed_app future_to_dir (l1 l2 : list Future)
    (st : @loader_state Document Response) :
  for_as_completed future_to_dir (l1 ++ l2) st =
    match for_as_completed future_to_dir l1 st with
    | Normal st' => for_as_completed future_to_dir l2 st'
    | Escapes e st' => Escapes e st'
    end.
Proof.
  revert st. induction l1 as [|future l1 IH]; intros st; [done|].
  simpl. destruct (loop_body future_to_dir st future); [apply IH|done].
Qed.

Lemma length_completed_ids_events
    (future_to_dir : list (@Future Document * string)) (order : list Future) :
  length (completed_ids (Response := Response)
            (flat_map (future_events future_to_dir) order)) = length order.
Proof.
  rewrite completed_ids_flat_map.
  rewrite (Enumerator.flat_map_ext_eq _ (fun future => [fut_id future])).
  2:{ intros future. unfold future_events. by destruct (fut_result future). }
  by rewrite flat_map_singleton, length_map.
Qed.

(** The dict of submissions depends on the reader only through what it
    does on the submitted directories. *)
Lemma submit_all_ext (reader' : string -> @outcome Document)
    (dir_paths : list string) :
  (∀ d, d ∈ dir_paths -> reader' d = reader d) ->
  submit_all reader' dir_paths = submit_all reader dir_paths.
Proof.
  intros H. unfold submit_all. apply imap_ext. intros i d Hi.
  unfold executor_submit, load_documents_from_single_directory.
  by rewrite (H d) by (by eapply list_elem_of_lookup_2).
Qed.

End LoaderFacts.

(** ** The interactive loop *)

Module LoopFacts.

Lemma lower_e c : Str.lower_ascii c = "e"%char ↔ Str.upper_ascii c = "E"%char.
Proof.
  destruct c as [[] [] [] [] [] [] [] []]; vm_compute; split; congruence.
Qed.

Lemma lower_x c : Str.lower_ascii c = "x"%char ↔ Str.upper_ascii c = "X"%char.
Proof.
  destruct c as [[] [] [] [] [] [] [] []]; vm_compute; split; congruence.
Qed.

Lemma lower_i c : Str.lower_ascii c = "i"%char ↔ Str.upper_ascii c = "I"%char.
Proof.
  destruct c as [[] [] [] [] [] [] [] []]; vm_compute; split; congruence.
Qed.

Lemma lower_t c : Str.lower_ascii c = "t"%char ↔ Str.upper_ascii c = "T"%char.
Proof.
  destruct c as [[] [] [] [] [] [] [] []]; vm_compute; split; congruence.
Qed.

(** [query.lower() == 'exit'] decides equality with ["exit"] up to
    letter case. *)
Lemma lower_exit_iff (query : string) :
  Str.lower query = "exit" ↔ Str.caseless_eq query "exit".
Proof.
  unfold Str.caseless_eq.
  destruct query as [|c1 [|c2 [|c3 [|c4 [|c5 q]]]]];
    try (split; discriminate).
  change (Str.upper "exit") with "EXIT". split; intros H.
  - simpl in H. injection H as H1 H2 H3 H4.
    apply lower_e in H1. apply lower_x in H2.
    apply lower_i in H3. apply lower_t in H4.
    simpl. by rewrite H1, H2, H3, H4.
  - simpl in H. injection H as H1 H2 H3 H4.
    apply lower_e in H1. apply lower_x in H2.
    apply lower_i in H3. apply lower_t in H4.
    simpl. by rewrite H1, H2, H3, H4.
Qed.

Section Loop.

Context {Document Engine Response : Type}.
Variable engine_query : Engine -> string -> Response.
Variable query_engine : Engine.

Lemma loop_iteration_exit (query : string) :
  Str.lower query = "exit" ->
  loop_iteration (Document := Document) engine_query query_engine query =
    ([EvInput prompt query], TERMINATED).
Proof.
  intros H. unfold loop_iteration.
  by rewrite (proj2 (String.eqb_eq _ _) H).
Qed.

Lemma loop_iteration_query (query : string) :
  Str.lower query ≠ "exit" ->
  loop_iteration (Document := Document) engine_query query_engine query =
    ([EvInput prompt query; EvQuery query;
      EvStream (engine_query query_engine query); EvPrint ""],
     AWAITING_INPUT).
Proof.
  intros H. unfold loop_iteration.
  by rewrite (proj2 (String.eqb_neq _ _) H).
Qed.

(** Whatever standard input holds, the loop opens with the prompt. *)
Lemma interactive_loop_prompts (stdin : list string) :
  ∃ (next : @event Document Response) evs,
    events_of (interactive_loop engine_query query_engine stdin) =
      next :: evs ∧
    (next = EvInputEOF prompt ∨ ∃ line, next = EvInput prompt line).
Proof.
  destruct stdin as [|query rest]; simpl.
  - eexists _, _. split; [done|by left].
  - unfold loop_iteration. destruct (String.eqb _ _); simpl.
    + eexists _, _. split; [done|]. right. by eexists.
    + destruct (interactive_loop _ _ rest); simpl;
        (eexists _, _; split; [done|]; right; by eexists).
Qed.

(** The loop neither builds an index nor receives a load task. *)
Lemma interactive_loop_events (stdin : list string) :
  Forall (fun e : @event Document Response => is_build e = false ∧ is_completed e = false)
         (events_of (interactive_loop engine_query query_engine stdin)).
Proof.
  induction stdin as [|query rest IH]; simpl; [by repeat constructor|].
  unfold loop_iteration. destruct (String.eqb _ _); simpl;
    [by repeat constructor|].
  destruct (interactive_loop _ _ rest); simpl in *; by repeat constructor.
Qed.

End Loop.

End LoopFacts.

(** ** Properties of the program *)

Import Enumerator.

(** C2: for a directory tree rooted at [directory], [get_all_directories]
    holds exactly the paths of the directories reached from the root by
    descending one or more levels; no path occurs twice, no path of a
    plain file occurs, and the root itself does not occur. *)
Theorem get_all_directories_exact (fs : filesystem) (directory : string)
    (cs : list entry) :
  fs directory = Some cs ->
  wf_listing cs = true ->
  (∀ p, p ∈ get_all_directories fs directory ↔ subdirectory directory cs p) ∧
  NoDup (get_all_directories fs directory) ∧
  (∀ p, p ∈ get_all_directories fs directory -> ¬ file_path directory cs p) ∧
  directory ∉ get_all_directories fs directory.
Proof.
  intros Hfs Hwf. rewrite (get_all_directories_some _ _ _ Hfs).
  split; [|split; [|split]].
  - intros p. apply elem_of_dirs_below.
  - by apply NoDup_dirs_below.
  - intros p Hp%elem_of_dirs_below. by apply subdirectory_not_file.
  - intros Hp%elem_of_dirs_below.
    pose proof (subdirectory_longer _ _ _ Hwf Hp). lia.
Qed.

Lemma get_all_directories_exact_witness :
  Sample.fs "data" = Some Sample.listing ∧
  wf_listing Sample.listing = true ∧
  NoDup (get_all_directories Sample.fs "data") ∧
  "data" ∉ get_all_directories Sample.fs "data".
Proof.
  split; [reflexivity|]. split; [reflexivity|].
  pose proof (get_all_directories_exact Sample.fs "data" Sample.listing
                eq_refl eq_refl) as (_ & Hnd & _ & Hroot).
  by split.
Defined.

(** C1: when exactly one of the enumerated directories makes the reader
    raise and the reader succeeds on all the others, the loader returns
    normally, its list is (as a multiset) the union of the results of the
    other directories, and it prints exactly one line, the diagnostic that
    names the failing directory and the error. *)
Theorem load_one_failure {Document Response : Type}
    (reader : string -> @outcome Document) (fs : filesystem)
    (as_completed : scheduler) (directory : string)
    (l1 : list string) (bad : string) (l2 : list string) (e : exception)
    (result : string -> list Document) :
  get_all_directories fs directory = l1 ++ bad :: l2 ->
  reader bad = Raised e ->
  (∀ d, d ∈ l1 ++ l2 -> reader d = Returned (result d)) ->
  fair as_completed
       (map fst (submit_all reader (get_all_directories fs directory))) ->
  ∃ st : @loader_state Document Response,
    load_documents_from_directory reader fs as_completed directory = Normal st ∧
    documents st ≡ₚ flat_map result (l1 ++ l2) ∧
    printed (trace st) =
      ["Error loading documents from directory " +:+ bad +:+ ": " +:+ e].
Proof.
  intros Hdirs Hbad Hok Hfair.
  destruct (loader_run (Response := Response) reader fs as_completed directory Hfair)
    as (st & Hrun & Hdocs & Hout & _).
  assert (∀ d, d ∈ l1 -> reader d = Returned (result d)) as Hok1.
  { intros d Hd. apply Hok, elem_of_app. by left. }
  assert (∀ d, d ∈ l2 -> reader d = Returned (result d)) as Hok2.
  { intros d Hd. apply Hok, elem_of_app. by right. }
  exists st. split; [done|]. split.
  - rewrite Hdocs, Hdirs.
    rewrite successful_results_app, (successful_results_ok _ result l1 Hok1).
    change (bad :: l2) with ([bad] ++ l2).
    rewrite successful_results_app, (successful_results_ok _ result l2 Hok2).
    unfold successful_results at 1. simpl. rewrite Hbad. simpl.
    by rewrite flat_map_app.
  - apply Permutation_singleton_r. rewrite Hout, Hdirs.
    rewrite diagnostics_app, (diagnostics_ok _ result l1 Hok1).
    change (bad :: l2) with ([bad] ++ l2).
    rewrite diagnostics_app, (diagnostics_ok _ result l2 Hok2).
    unfold diagnostics. simpl. by rewrite Hbad.
Qed.

Lemma load_one_failure_witness :
  get_all_directories Sample.fs "data" = ["data/a"] ++ "data/b" :: [] ∧
  fair Sample.as_completed
       (map fst (submit_all Sample.reader (get_all_directories Sample.fs "data"))) ∧
  ∃ st : @loader_state string string,
    load_documents_from_directory Sample.reader Sample.fs Sample.as_completed
      "data" = Normal st ∧
    documents st ≡ₚ flat_map Sample.result (["data/a"] ++ []) ∧
    printed (trace st) =
      ["Error loading documents from directory data/b: [Errno 13] Permission denied: 'data/b'"].
Proof.
  assert (fair Sample.as_completed
            (map fst (submit_all Sample.reader
                        (get_all_directories Sample.fs "data")))) as Hfair.
  { vm_compute. apply perm_swap. }
  split; [reflexivity|]. split; [exact Hfair|].
  apply (load_one_failure Sample.reader Sample.fs Sample.as_completed "data"
           ["data/a"] "data/b" [] _ Sample.result);
    [reflexivity|reflexivity| |exact Hfair].
  intros d Hd. apply list_elem_of_singleton in Hd. subst d. reflexivity.
Defined.

(** C3: when the reader succeeds on every enumerated directory, the list
    the loader returns is, as a multiset, the union of all the
    per-directory results, and two runs under any two completion orders
    return the same multiset. *)
Theorem load_all_succeed {Document Response : Type}
    (reader : string -> @outcome Document) (fs : filesystem)
    (order1 order2 : scheduler) (directory : string)
    (result : string -> list Document) :
  (∀ d, d ∈ get_all_directories fs directory -> reader d = Returned (result d)) ->
  fair order1 (map fst (submit_all reader (get_all_directories fs directory))) ->
  fair order2 (map fst (submit_all reader (get_all_directories fs directory))) ->
  ∃ st1 st2 : @loader_state Document Response,
    load_documents_from_directory reader fs order1 directory = Normal st1 ∧
    load_documents_from_directory reader fs order2 directory = Normal st2 ∧
    documents st1 ≡ₚ flat_map result (get_all_directories fs directory) ∧
    documents st2 ≡ₚ documents st1.
Proof.
  intros Hok Hfair1 Hfair2.
  destruct (loader_run (Response := Response) reader fs order1 directory Hfair1)
    as (st1 & Hrun1 & Hdocs1 & _).
  destruct (loader_run (Response := Response) reader fs order2 directory Hfair2)
    as (st2 & Hrun2 & Hdocs2 & _).
  exists st1, st2. split; [done|]. split; [done|]. split.
  - by rewrite Hdocs1, (successful_results_ok _ result _ Hok).
  - by rewrite Hdocs1, Hdocs2.
Qed.

Lemma load_all_succeed_witness :
  fair Sample.as_completed
       (map fst (submit_all Sample.reader_ok (get_all_directories Sample.fs "data"))) ∧
  fair Sample.in_order
       (map fst (submit_all Sample.reader_ok (get_all_directories Sample.fs "data"))) ∧
  ∃ st1 st2 : @loader_state string string,
    load_documents_from_directory Sample.reader_ok Sample.fs
      Sample.as_completed "data" = Normal st1 ∧
    load_documents_from_directory Sample.reader_ok Sample.fs
      Sample.in_order "data" = Normal st2 ∧
    documents st1 ≡ₚ ["data/a/doc"; "data/b/doc"] ∧
    documents st2 ≡ₚ documents st1.
Proof.
  assert (fair Sample.as_completed
            (map fst (submit_all Sample.reader_ok
                        (get_all_directories Sample.fs "data")))) as Hfair1.
  { vm_compute. apply perm_swap. }
  assert (fair Sample.in_order
            (map fst (submit_all Sample.reader_ok
                        (get_all_directories Sample.fs "data")))) as Hfair2.
  { vm_compute. reflexivity. }
  split; [exact Hfair1|]. split; [exact Hfair2|].
  apply (load_all_succeed Sample.reader_ok Sample.fs Sample.as_completed
           Sample.in_order "data" Sample.result_ok);
    [|exact Hfair1|exact Hfair2].
  intros d _. reflexivity.
Defined.

(** C6: over [N] enumerated directories the run of the loader passes,
    for every [k] up to [N], through a state in which [k] load tasks have
    been received and the progress counter stands at [k]; it ends with all
    [N] tasks received and the counter at exactly [N], the total the bar
    was given, whatever the reader returns or raises for each of them. *)
Theorem progress_counter_reaches_total {Document Response : Type}
    (reader : string -> @outcome Document) (fs : filesystem)
    (as_completed : scheduler) (directory : string) :
  fair as_completed
       (map fst (submit_all reader (get_all_directories fs directory))) ->
  let N := length (get_all_directories fs directory) in
  let future_to_dir := submit_all reader (get_all_directories fs directory) in
  let order := as_completed (map fst future_to_dir) in
  ∃ st : @loader_state Document Response,
    load_documents_from_directory reader fs as_completed directory = Normal st ∧
    pbar_n st = N ∧ pbar_total st = N ∧
    length (completed_ids (trace st)) = N ∧
    ∀ k, k ≤ N ->
      ∃ st_k : @loader_state Document Response,
        for_as_completed future_to_dir (take k order)
          (mkLoader [] [] 0 (length future_to_dir)) = Normal st_k ∧
        for_as_completed future_to_dir (drop k order) st_k =
          load_documents_from_directory reader fs as_completed directory ∧
        length (completed_ids (trace st_k)) = k ∧
        pbar_n st_k = k ∧ pbar_total st_k = N.
Proof.
  intros Hfair N future_to_dir order. unfold fair in Hfair.
  assert (length order = N) as Hlen.
  { subst order future_to_dir N. by rewrite Hfair, keys_submitted, length_imap. }
  assert (length future_to_dir = N) as Htotal.
  { subst future_to_dir N. unfold submit_all. by rewrite length_imap. }
  assert (∀ future, future ∈ order -> is_Some (dict_get future_to_dir future))
    as Hkeys.
  { intros future Hin. apply key_in_dict. subst order future_to_dir.
    by rewrite <-Hfair. }
  assert (load_documents_from_directory (Response := Response) reader fs
            as_completed directory =
          for_as_completed future_to_dir order
            (mkLoader [] [] 0 (length future_to_dir))) as Hload by done.
  eexists. split.
  { rewrite Hload. by apply for_as_completed_run. }
  simpl. split; [done|]. split; [done|]. split.
  { by rewrite length_completed_ids_events. }
  intros k Hk. eexists. split.
  { apply for_as_completed_run. intros future Hin. apply Hkeys.
    by eapply subseteq_take. }
  split.
  { assert (for_as_completed future_to_dir order
              (mkLoader [] [] 0 (length future_to_dir)) =
            for_as_completed future_to_dir (take k order ++ drop k order)
              (mkLoader (Response := Response) [] [] 0 (length future_to_dir)))
      as Hsplit by (by rewrite take_drop).
    rewrite Hload, Hsplit, for_as_completed_app.
    rewrite (for_as_completed_run future_to_dir (take k order)); [done|].
    intros future Hin. apply Hkeys. by eapply subseteq_take. }
  simpl. rewrite length_completed_ids_events, length_take. lia.
Qed.

Lemma progress_counter_reaches_total_witness :
  fair Sample.as_completed
       (map fst (submit_all Sample.reader (get_all_directories Sample.fs "data"))) ∧
  ∃ st : @loader_state string string,
    load_documents_from_directory Sample.reader Sample.fs Sample.as_completed
      "data" = Normal st ∧
    pbar_n st = 2 ∧ pbar_total st = 2 ∧
    length (completed_ids (trace st)) = 2.
Proof.
  assert (fair Sample.as_completed
            (map fst (submit_all Sample.reader
                        (get_all_directories Sample.fs "data")))) as Hfair.
  { vm_compute. apply perm_swap. }
  split; [exact Hfair|].
  destruct (progress_counter_reaches_total (Response := string)
              Sample.reader Sample.fs Sample.as_completed "data" Hfair)
    as (st & Hrun & Hn & Htotal & Hids & _).
  by exists st.
Defined.

(** C7: the events of every run of [main] split around a single index
    build: the index is built from the list the loader returned; before
    the build every load task has completed and no query has been made;
    after it there is no further build and no load task, so every query
    comes after the one build. *)
Theorem index_built_once {Document Index Engine Response : Type}
    (reader : string -> @outcome Document)
    (from_documents : list Document -> Index)
    (as_query_engine : Index -> bool -> nat -> Engine)
    (engine_query : Engine -> string -> Response)
    (fs : filesystem) (as_completed : scheduler)
    (data_folder model_name : string) (stdin : list string) :
  fair as_completed
       (map fst (submit_all reader (get_all_directories fs data_folder))) ->
  ∃ (st : @loader_state Document Response) (before after : list event),
    load_documents_from_directory reader fs as_completed data_folder = Normal st ∧
    events_of (main reader from_documents as_query_engine engine_query
                 fs as_completed data_folder model_name stdin) =
      before ++ EvBuildIndex (documents st) :: after ∧
    completed_ids before ≡ₚ
      seq 0 (length (get_all_directories fs data_folder)) ∧
    Forall (fun ev => is_build ev = false ∧ is_query ev = false) before ∧
    Forall (fun ev => is_build ev = false ∧ is_completed ev = false) after.
Proof.
  intros Hfair.
  destruct (loader_run (Response := Response) reader fs as_completed
              data_folder Hfair) as (st & Hrun & _ & _ & Hids & Hquiet & _).
  exists st, (trace st ++ [EvEmbedModel "BAAI/bge-base-en-v1.5";
                           EvLlm model_name 360]),
    (EvAsQueryEngine true 5 ::
     events_of (interactive_loop engine_query
                  (as_query_engine (from_documents (documents st)) true 5)
                  stdin)).
  split; [done|]. split; [|split; [|split]].
  - unfold main. rewrite Hrun.
    destruct (interactive_loop _ _ stdin); simpl; by rewrite <-app_assoc.
  - unfold completed_ids in *. rewrite flat_map_app. simpl.
    by rewrite app_nil_r.
  - apply Forall_app. split; [done|by repeat constructor].
  - constructor; [done|]. apply LoopFacts.interactive_loop_events.
Qed.

Lemma index_built_once_witness :
  fair Sample.as_completed
       (map fst (submit_all Sample.reader (get_all_directories Sample.fs "data"))) ∧
  ∃ (st : @loader_state string string) (before after : list event),
    load_documents_from_directory Sample.reader Sample.fs Sample.as_completed
      "data" = Normal st ∧
    events_of (main Sample.reader Sample.from_documents Sample.as_query_engine
                 Sample.engine_query Sample.fs Sample.as_completed
                 "data" "llama3" ["hello"; "Exit"]) =
      before ++ EvBuildIndex (documents st) :: after ∧
    completed_ids before ≡ₚ seq 0 2 ∧
    Forall (fun ev => is_build ev = false ∧ is_query ev = false) before ∧
    Forall (fun ev => is_build ev = false ∧ is_completed ev = false) after.
Proof.
  assert (fair Sample.as_completed
            (map fst (submit_all Sample.reader
                        (get_all_directories Sample.fs "data")))) as Hfair.
  { vm_compute. apply perm_swap. }
  split; [exact Hfair|].
  exact (index_built_once Sample.reader Sample.from_documents
           Sample.as_query_engine Sample.engine_query Sample.fs
           Sample.as_completed "data" "llama3" ["hello"; "Exit"] Hfair).
Defined.

(** C8: for every root, the load tasks are exactly the enumerated
    directories, each a directory strictly below the root and never the
    root itself; the loader receives as many tasks as there are enumerated
    directories, its list is the union of what the reader returns on them,
    and nothing the reader would find in the root reaches it: the run of
    the loader is the same whatever the reader does on the root.  When the
    root lists plain files only, nothing is submitted and the loader
    returns the empty list. *)
Theorem root_files_never_loaded {Document Response : Type}
    (reader : string -> @outcome Document) (fs : filesystem)
    (as_completed : scheduler) (directory : string) (cs : list entry) :
  fs directory = Some cs ->
  wf_listing cs = true ->
  fair as_completed
       (map fst (submit_all reader (get_all_directories fs directory))) ->
  map snd (submit_all reader (get_all_directories fs directory)) =
    get_all_directories fs directory ∧
  (∀ d, d ∈ get_all_directories fs directory ->
        subdirectory directory cs d ∧ d ≠ directory) ∧
  (∃ st : @loader_state Document Response,
     load_documents_from_directory reader fs as_completed directory = Normal st ∧
     documents st ≡ₚ
       successful_results reader (get_all_directories fs directory) ∧
     length (completed_ids (trace st)) =
       length (get_all_directories fs directory)) ∧
  (∀ reader' : string -> @outcome Document,
     (∀ d, d ≠ directory -> reader' d = reader d) ->
     load_documents_from_directory (Response := Response) reader' fs
       as_completed directory =
     load_documents_from_directory reader fs as_completed directory) ∧
  ((∀ e, e ∈ cs -> ∃ n, e = File n) ->
   submit_all reader (get_all_directories fs directory) = [] ∧
   ∃ st : @loader_state Document Response,
     load_documents_from_directory reader fs as_completed directory = Normal st ∧
     documents st = []).
Proof.
  intros Hfs Hwf Hfair.
  assert (∀ d, d ∈ get_all_directories fs directory ->
            subdirectory directory cs d ∧ d ≠ directory) as Hbelow.
  { intros d Hd. rewrite (get_all_directories_some _ _ _ Hfs) in Hd.
    apply elem_of_dirs_below in Hd. split; [done|].
    intros ->. pose proof (subdirectory_longer _ _ _ Hwf Hd). lia. }
  destruct (loader_run (Response := Response) reader fs as_completed
              directory Hfair) as (st & Hrun & Hdocs & _ & Hids & _).
  split; [|split; [done|split; [|split]]].
  - unfold submit_all. change (map snd ?l) with (snd <$> l).
    rewrite fmap_imap.
    rewrite (imap_ext _ (const id)) by done.
    by rewrite imap_const, list_fmap_id.
  - exists st. split; [done|]. split; [done|].
    by rewrite Hids, length_seq.
  - intros reader' Hsame. unfold load_documents_from_directory.
    rewrite (submit_all_ext reader reader'); [done|].
    intros d Hd. apply Hsame. by apply Hbelow.
  - intros Hfiles.
    assert (get_all_directories fs directory = []) as Hnil.
    { apply elem_of_nil_inv. intros p Hp.
      rewrite (get_all_directories_some _ _ _ Hfs) in Hp.
      apply elem_of_dirs_below in Hp.
      destruct (subdirectory_shape _ _ _ Hwf Hp) as (n & sub & _ & Hin & _).
      by destruct (Hfiles _ Hin). }
    split; [by rewrite Hnil|].
    exists st. split; [done|].
    rewrite Hnil in Hdocs. by apply Permutation_nil_r in Hdocs.
Qed.

Lemma root_files_never_loaded_witness :
  Sample.fs "data" = Some Sample.listing ∧
  wf_listing Sample.listing = true ∧
  fair Sample.as_completed
       (map fst (submit_all Sample.reader (get_all_directories Sample.fs "data"))) ∧
  Sample.reader "data" = Returned ["data"] ∧
  ∃ st : @loader_state string string,
    load_documents_from_directory Sample.reader Sample.fs Sample.as_completed
      "data" = Normal st ∧
    documents st ≡ₚ ["1.txt"; "2.txt"] ∧
    length (completed_ids (trace st)) = 2.
Proof.
  assert (fair Sample.as_completed
            (map fst (submit_all Sample.reader
                        (get_all_directories Sample.fs "data")))) as Hfair.
  { vm_compute. apply perm_swap. }
  split; [reflexivity|]. split; [reflexivity|]. split; [exact Hfair|].
  split; [reflexivity|].
  exact (proj1 (proj2 (proj2 (root_files_never_loaded (Response := string)
           Sample.reader Sample.fs Sample.as_completed "data" Sample.listing
           eq_refl eq_refl Hfair)))).
Defined.

(** C9: on a root path that cannot be scanned (it does not exist),
    [get_all_directories] returns the empty list and raises nothing; the
    loader is given no task and returns the empty list, and the run goes
    on to the index build over no documents. *)
Theorem missing_root_yields_nothing {Document Index Engine Response : Type}
    (reader : string -> @outcome Document)
    (from_documents : list Document -> Index)
    (as_query_engine : Index -> bool -> nat -> Engine)
    (engine_query : Engine -> string -> Response)
    (fs : filesystem) (as_completed : scheduler)
    (directory model_name : string) (stdin : list string) :
  fs directory = None ->
  fair as_completed [] ->
  get_all_directories fs directory = [] ∧
  submit_all reader (get_all_directories fs directory) = [] ∧
  load_documents_from_directory (Response := Response) reader fs as_completed
    directory = Normal (mkLoader [] [] 0 0) ∧
  ∃ evs,
    events_of (main reader from_documents as_query_engine engine_query
                 fs as_completed directory model_name stdin) =
      setup_events model_name [] ++ evs.
Proof.
  intros Hfs Hfair. unfold fair in Hfair. apply Permutation_nil_r in Hfair.
  pose proof (get_all_directories_none _ _ Hfs) as Hnil.
  assert (load_documents_from_directory (Response := Response) reader fs
            as_completed directory = Normal (mkLoader [] [] 0 0)) as Hrun.
  { unfold load_documents_from_directory. rewrite Hnil. simpl.
    by rewrite Hfair. }
  split; [done|]. split; [by rewrite Hnil|]. split; [done|].
  unfold main. rewrite Hrun. simpl.
  destruct (interactive_loop _ _ stdin) as [evs|e evs]; by exists evs.
Qed.

Lemma missing_root_yields_nothing_witness :
  Sample.fs "nowhere" = None ∧
  fair Sample.as_completed [] ∧
  get_all_directories Sample.fs "nowhere" = [] ∧
  load_documents_from_directory (Response := string) Sample.reader Sample.fs
    Sample.as_completed "nowhere" = Normal (mkLoader [] [] 0 0).
Proof.
  assert (fair Sample.as_completed []) as Hfair by (vm_compute; reflexivity).
  split; [reflexivity|]. split; [exact Hfair|].
  destruct (missing_root_yields_nothing Sample.reader Sample.from_documents
              Sample.as_query_engine Sample.engine_query Sample.fs
              Sample.as_completed "nowhere" "llama3" ["exit"] eq_refl Hfair)
    as (Hdirs & _ & Hrun & _).
  by split.
Defined.

(** C4: a line equal to ["exit"] up to the case of its letters (such as
    ["EXIT"] or ["Exit"]) takes the loop to its terminated state: the pass
    reads the line and does nothing else, the loop ends there, and no
    query is made. *)
Theorem exit_terminates_without_query {Document Engine Response : Type}
    (engine_query : Engine -> string -> Response) (query_engine : Engine)
    (query : string) (rest : list string) :
  Str.caseless_eq query "exit" ->
  loop_iteration (Document := Document) engine_query query_engine query =
    ([EvInput prompt query], TERMINATED) ∧
  interactive_loop (Document := Document) engine_query query_engine
    (query :: rest) = Normal [EvInput prompt query] ∧
  Forall (fun ev => is_query ev = false)
    (events_of (interactive_loop (Document := Document) engine_query
                  query_engine (query :: rest))).
Proof.
  intros Hexit%LoopFacts.lower_exit_iff.
  pose proof (LoopFacts.loop_iteration_exit (Document := Document)
                engine_query query_engine query Hexit) as Hit.
  split; [done|]. simpl. rewrite Hit. split; [done|].
  by repeat constructor.
Qed.

Lemma exit_terminates_without_query_witness :
  Str.caseless_eq "EXIT" "exit" ∧ Str.caseless_eq "Exit" "exit" ∧
  interactive_loop (Document := string) Sample.engine_query ["1.txt"]
    ["EXIT"; "more"] = Normal [EvInput prompt "EXIT"] ∧
  interactive_loop (Document := string) Sample.engine_query ["1.txt"]
    ["Exit"; "more"] = Normal [EvInput prompt "Exit"].
Proof.
  split; [reflexivity|]. split; [reflexivity|]. split.
  - exact (proj1 (proj2 (exit_terminates_without_query (Document := string)
             Sample.engine_query ["1.txt"] "EXIT" ["more"] eq_refl))).
  - reflexivity.
Defined.

(** C5: for a non-empty line that is not ["exit"] up to letter case, one
    pass of the loop reads the line, makes one call to the engine with
    that very string, streams the response, prints one empty line and is
    back awaiting input: the next event of the loop is the prompt. *)
Theorem other_input_one_query {Document Engine Response : Type}
    (engine_query : Engine -> string -> Response) (query_engine : Engine)
    (query : string) (rest : list string) :
  query ≠ "" ->
  ¬ Str.caseless_eq query "exit" ->
  loop_iteration (Document := Document) engine_query query_engine query =
    ([EvInput prompt query; EvQuery query;
      EvStream (engine_query query_engine query); EvPrint ""],
     AWAITING_INPUT) ∧
  ∃ next evs,
    events_of (interactive_loop (Document := Document) engine_query
                 query_engine (query :: rest)) =
      [EvInput prompt query; EvQuery query;
       EvStream (engine_query query_engine query); EvPrint ""] ++
      next :: evs ∧
    (next = EvInputEOF prompt ∨ ∃ line, next = EvInput prompt line).
Proof.
  intros _ Hne.
  assert (Str.lower query ≠ "exit") as Hlow.
  { intros H. by apply Hne, LoopFacts.lower_exit_iff. }
  pose proof (LoopFacts.loop_iteration_query (Document := Document)
                engine_query query_engine query Hlow) as Hit.
  split; [done|].
  destruct (LoopFacts.interactive_loop_prompts (Document := Document)
              engine_query query_engine rest) as (next & evs & Hev & Hnext).
  exists next, evs. split; [|done].
  simpl. rewrite Hit.
  destruct (interactive_loop _ _ rest); simpl in *; by rewrite Hev.
Qed.

Lemma other_input_one_query_witness :
  "hello" ≠ "" ∧ ¬ Str.caseless_eq "hello" "exit" ∧
  loop_iteration (Document := string) Sample.engine_query ["1.txt"] "hello" =
    ([EvInput prompt "hello"; EvQuery "hello"; EvStream "hello?"; EvPrint ""],
     AWAITING_INPUT).
Proof.
  assert ("hello" ≠ "") as H1 by discriminate.
  assert (¬ Str.caseless_eq "hello" "exit") as H2 by (vm_compute; discriminate).
  split; [exact H1|]. split; [exact H2|].
  exact (proj1 (other_input_one_query (Document := string)
                  Sample.engine_query ["1.txt"] "hello" ["exit"] H1 H2)).
Defined.

(** C10: on the empty line the loop neither ends nor skips the pass: it
    makes one call to the engine with the empty string, streams the
    response, prints the empty line and awaits input again. *)
Theorem empty_input_is_queried {Document Engine Response : Type}
    (engine_query : Engine -> string -> Response) (query_engine : Engine)
    (rest : list string) :
  loop_iteration (Document := Document) engine_query query_engine "" =
    ([EvInput prompt ""; EvQuery "";
      EvStream (engine_query query_engine ""); EvPrint ""],
     AWAITING_INPUT) ∧
  ∃ next evs,
    events_of (interactive_loop (Document := Document) engine_query
                 query_engine ("" :: rest)) =
      [EvInput prompt ""; EvQuery "";
       EvStream (engine_query query_engine ""); EvPrint ""] ++
      next :: evs ∧
    (next = EvInputEOF prompt ∨ ∃ line, next = EvInput prompt line).
Proof.
  split; [done|].
  destruct (LoopFacts.interactive_loop_prompts (Document := Document)
              engine_query query_engine rest) as (next & evs & Hev & Hnext).
  exists next, evs. split; [|done].
  simpl. unfold loop_iteration. simpl.
  destruct (interactive_loop _ _ rest); simpl in *; by rewrite Hev.
Qed.

(** ** Further properties of the enumerator *)

Module EnumeratorMore.

Lemma flat_map_dirnames {B} (g : string -> list B) (cs : list entry) :
  flat_map g (dirnames cs) =
    flat_map (fun e => match e with Dir n _ => g n | File _ => [] end) cs.
Proof.
  unfold dirnames. rewrite flat_map_flat_map. apply flat_map_ext.
  intros [n|n sub]; simpl; [done|by rewrite app_nil_r].
Qed.

Lemma flat_map_ext_elem {A B} (f g : A -> list B) (l : list A) :
  (∀ x, x ∈ l -> f x = g x) -> flat_map f l = flat_map g l.
Proof.
  induction l as [|x l IH]; intros H; [done|].
  simpl. rewrite H by left. f_equal. apply IH. intros y Hy. apply H. by right.
Qed.

Lemma length_dirs_below top cs : length (dirs_below top cs) = count_dirs cs.
Proof.
  revert top. induction cs as [cs IH] using listing_ind. intros top.
  rewrite dirs_below_unfold, length_app, length_map. unfold count_dirs.
  assert (∀ n sub, Dir n sub ∈ cs ->
            ∀ top', length (dirs_below top' sub) = count_dirs sub) as IH'.
  { intros n sub Hin top'. by eapply IH. }
  clear IH. induction cs as [|e cs IHcs]; [done|].
  assert (length (dirnames cs) +
          length (flat_map (fun e => match e with
                                     | Dir n sub => dirs_below (os_path_join top n) sub
                                     | File _ => []
                                     end) cs) =
          sum_list (map count_dirs_entry cs)) as Hrest.
  { apply IHcs. intros n sub Hin. apply (IH' n sub). by right. }
  destruct e as [n|n sub]; simpl; [done|].
  rewrite length_app, (IH' n sub) by left.
  unfold count_dirs. lia.
Qed.

Lemma dirnames_prune cs : dirnames (prune cs) = dirnames cs.
Proof.
  induction cs as [|e cs IH]; [done|].
  destruct e as [n|n sub]; simpl; [done|]. by f_equal.
Qed.

Lemma dirs_below_prune top cs : dirs_below top (prune cs) = dirs_below top cs.
Proof.
  revert top. induction cs as [cs IH] using listing_ind. intros top.
  rewrite !dirs_below_unfold, dirnames_prune. f_equal.
  unfold prune at 1. rewrite flat_map_flat_map.
  apply flat_map_ext_elem. intros [n|n sub] Hin; simpl; [done|].
  rewrite app_nil_r. by eapply IH.
Qed.



End EnumeratorMore.

(** X1: the enumeration of a directory is the paths of the directories it
    lists, in listing order, followed by the enumeration of each of them
    in turn. *)
Theorem get_all_directories_by_level (fs : filesystem) (directory : string)
    (cs : list entry) :
  fs directory = Some cs ->
  (∀ n sub, Dir n sub ∈ cs -> fs (os_path_join directory n) = Some sub) ->
  get_all_directories fs directory =
    map (os_path_join directory) (dirnames cs) ++
    flat_map (fun n => get_all_directories fs (os_path_join directory n))
             (dirnames cs).
Proof.
  intros Hfs Hsub.
  rewrite (get_all_directories_some _ _ _ Hfs), dirs_below_unfold.
  rewrite EnumeratorMore.flat_map_dirnames. f_equal.
  apply EnumeratorMore.flat_map_ext_elem. intros [n|n sub] Hin; [done|].
  by rewrite (get_all_directories_some _ _ sub) by eauto.
Qed.

Lemma get_all_directories_by_level_witness :
  Tree.fs "tree/" = Some Sample.nested ∧
  get_all_directories Tree.fs "tree/" =
    ["tree/a"; "tree/b"] ++
    (get_all_directories Tree.fs "tree/a" ++
     get_all_directories Tree.fs "tree/b" ++ []).
Proof.
  split; [reflexivity|].
  apply (get_all_directories_by_level Tree.fs "tree/" Sample.nested eq_refl).
  intros n sub Hin. unfold Sample.nested in Hin.
  repeat (apply elem_of_cons in Hin as [Hin|Hin]; [by simplify_eq|]).
  by apply elem_of_nil in Hin.
Defined.

(** X2: the enumeration has one path per directory of the tree below the
    root, counted at every depth. *)
Theorem get_all_directories_length (fs : filesystem) (directory : string)
    (cs : list entry) :
  fs directory = Some cs ->
  length (get_all_directories fs directory) = count_dirs cs.
Proof.
  intros Hfs. rewrite (get_all_directories_some _ _ _ Hfs).
  apply EnumeratorMore.length_dirs_below.
Qed.

Lemma get_all_directories_length_witness :
  Tree.fs "tree" = Some Sample.nested ∧
  length (get_all_directories Tree.fs "tree") = 4.
Proof.
  split; [reflexivity|].
  exact (get_all_directories_length Tree.fs "tree" Sample.nested eq_refl).
Defined.



(** X4: plain files play no part in the enumeration: a tree and the same
    tree with every file removed enumerate to the same list. *)
Theorem get_all_directories_ignores_files (fs fs' : filesystem)
    (directory : string) (cs : list entry) :
  fs directory = Some cs ->
  fs' directory = Some (prune cs) ->
  get_all_directories fs' directory = get_all_directories fs directory.
Proof.
  intros Hfs Hfs'.
  rewrite (get_all_directories_some _ _ _ Hfs),
    (get_all_directories_some _ _ _ Hfs').
  apply EnumeratorMore.dirs_below_prune.
Qed.

Lemma get_all_directories_ignores_files_witness :
  Tree.fs "tree" = Some Sample.nested ∧
  get_all_directories (fun _ => Some (prune Sample.nested)) "tree" =
    get_all_directories Tree.fs "tree".
Proof.
  split; [reflexivity|].
  exact (get_all_directories_ignores_files Tree.fs
           (fun _ => Some (prune Sample.nested)) "tree" Sample.nested
           eq_refl eq_refl).
Defined.

(** X5: every enumerated path lies under the root: it is the root path,
    a separator unless the root path is empty or already ends with one,
    and then a non-empty relative path that does not start with a
    separator. *)
Theorem get_all_directories_under_root (fs : filesystem) (directory : string)
    (cs : list entry) (p : string) :
  fs directory = Some cs ->
  wf_listing cs = true ->
  p ∈ get_all_directories fs directory ->
  ∃ q, p = path_prefix directory +:+ q ∧ q ≠ "" ∧
       Str.startswith sep q = false.
Proof.
  intros Hfs Hwf Hp. rewrite (get_all_directories_some _ _ _ Hfs) in Hp.
  apply elem_of_dirs_below in Hp.
  destruct (subdirectory_shape _ _ _ Hwf Hp) as (n & sub & r & Hin & -> & _).
  destruct (wf_listing_inv _ Hwf) as (_ & _ & Hd).
  destruct (Hd _ _ Hin) as [(He & _ & Hs & _)%valid_name_inv _].
  exists (n +:+ r). split; [done|].
  destruct n as [|a n]; [done|]. by rewrite StrFacts.app_cons.
Qed.

Lemma get_all_directories_under_root_witness :
  Tree.fs "tree" = Some Sample.nested ∧
  wf_listing Sample.nested = true ∧
  "tree/a/c" ∈ get_all_directories Tree.fs "tree" ∧
  ∃ q, "tree/a/c" = path_prefix "tree" +:+ q ∧ q ≠ "" ∧
       Str.startswith sep q = false.
Proof.
  assert ("tree/a/c" ∈ get_all_directories Tree.fs "tree") as Hin.
  { vm_compute. do 2 right. left. }
  split; [reflexivity|]. split; [reflexivity|]. split; [exact Hin|].
  exact (get_all_directories_under_root Tree.fs "tree" Sample.nested
           "tree/a/c" eq_refl eq_refl Hin).
Defined.

(** ** Further properties of the loader *)

Section LoaderMore.

Context {Document Response : Type}.
Variable reader : string -> @outcome Document.

Lemma length_diagnostics (l : list string) :
  length (diagnostics reader l) = length (List.filter (failing reader) l).
Proof.
  unfold diagnostics, failing. induction l as [|d l IH]; [done|].
  simpl. destruct (reader d); simpl; by rewrite ?IH.
Qed.

Lemma successful_results_all_fail (l : list string) :
  (∀ d, d ∈ l -> failing reader d = true) -> successful_results reader l = [].
Proof.
  unfold failing. induction l as [|d l IH]; intros H; [done|].
  simpl. pose proof (H d (list_elem_of_here _ _)) as Hd.
  destruct (reader d); [done|]. simpl. apply IH. intros d' Hd'. apply H.
  by right.
Qed.

Lemma filter_all_fail (l : list string) :
  (∀ d, d ∈ l -> failing reader d = true) ->
  List.filter (failing reader) l = l.
Proof.
  induction l as [|d l IH]; intros H; [done|].
  simpl. rewrite (H d) by left. f_equal. apply IH. intros d' Hd'. apply H.
  by right.
Qed.

(** The loader's final state in terms of the completion order. *)
Lemma loader_closed_form fs (as_completed : scheduler) directory :
  fair as_completed
       (map fst (submit_all reader (get_all_directories fs directory))) ->
  load_documents_from_directory (Response := Response) reader fs as_completed
    directory =
  Normal (mkLoader
    (flat_map future_docs
       (as_completed
          (map fst (submit_all reader (get_all_directories fs directory)))))
    (flat_map (future_events (submit_all reader (get_all_directories fs directory)))
       (as_completed
          (map fst (submit_all reader (get_all_directories fs directory)))))
    (length (as_completed
          (map fst (submit_all reader (get_all_directories fs directory)))))
    (length (submit_all reader (get_all_directories fs directory)))).
Proof.
  intros Hfair. unfold load_documents_from_directory.
  rewrite for_as_completed_run; [done|].
  intros future Hin. apply key_in_dict. unfold fair in Hfair.
  by rewrite <-Hfair.
Qed.

End LoaderMore.

(** X6: whatever the number of failing directories, the loader returns
    normally; its list is, as a multiset, the union of the results of the
    directories that were read, and it prints one diagnostic for each
    failing directory and nothing else. *)
Theorem load_partial_failures {Document Response : Type}
    (reader : string -> @outcome Document) (fs : filesystem)
    (as_completed : scheduler) (directory : string) :
  fair as_completed
       (map fst (submit_all reader (get_all_directories fs directory))) ->
  ∃ st : @loader_state Document Response,
    load_documents_from_directory reader fs as_completed directory = Normal st ∧
    documents st ≡ₚ
      successful_results reader (get_all_directories fs directory) ∧
    printed (trace st) ≡ₚ diagnostics reader (get_all_directories fs directory) ∧
    length (printed (trace st)) =
      length (List.filter (failing reader) (get_all_directories fs directory)).
Proof.
  intros Hfair.
  destruct (loader_run (Response := Response) reader fs as_completed
              directory Hfair) as (st & Hrun & Hdocs & Hout & _).
  exists st. split; [done|]. split; [done|]. split; [done|].
  by rewrite Hout, length_diagnostics.
Qed.

Lemma load_partial_failures_witness :
  fair Sample.as_completed
       (map fst (submit_all Tree.reader_bad (get_all_directories Tree.fs "tree"))) ∧
  ∃ st : @loader_state string string,
    load_documents_from_directory Tree.reader_bad Tree.fs Sample.as_completed
      "tree" = Normal st ∧
    documents st ≡ₚ [] ∧
    printed (trace st) ≡ₚ
      diagnostics Tree.reader_bad
        ["tree/a"; "tree/b"; "tree/a/c"; "tree/b/d"] ∧
    length (printed (trace st)) = 4.
Proof.
  assert (fair Sample.as_completed
            (map fst (submit_all Tree.reader_bad
                        (get_all_directories Tree.fs "tree")))) as Hfair.
  { vm_compute. symmetry. apply (Permutation_rev [_; _; _; _]). }
  split; [exact Hfair|].
  exact (load_partial_failures (Response := string) Tree.reader_bad Tree.fs
           Sample.as_completed "tree" Hfair).
Defined.

(** X7: the results are merged in the order in which [as_completed]
    hands the futures to the loop: the returned list is the concatenation,
    in that order, of what each future returned.  When [as_completed]
    yields the futures in submission order, the list is the successful
    results in enumeration order and the diagnostics come out in
    enumeration order too. *)
Theorem load_merges_in_yield_order {Document Response : Type}
    (reader : string -> @outcome Document) (fs : filesystem)
    (as_completed : scheduler) (directory : string) :
  fair as_completed
       (map fst (submit_all reader (get_all_directories fs directory))) ->
  ∃ st : @loader_state Document Response,
    load_documents_from_directory reader fs as_completed directory = Normal st ∧
    documents st =
      flat_map future_docs
        (as_completed
           (map fst (submit_all reader (get_all_directories fs directory)))) ∧
    (as_completed
       (map fst (submit_all reader (get_all_directories fs directory))) =
     map fst (submit_all reader (get_all_directories fs directory)) ->
     documents st =
       successful_results reader (get_all_directories fs directory) ∧
     printed (trace st) =
       diagnostics reader (get_all_directories fs directory)).
Proof.
  intros Hfair. eexists. split; [by apply loader_closed_form|].
  simpl. split; [done|]. intros ->. rewrite keys_submitted. split.
  - apply docs_of_keys.
  - rewrite printed_flat_map. apply diagnostics_of_keys.
Qed.

Lemma load_merges_in_yield_order_witness :
  fair Sample.as_completed
       (map fst (submit_all Sample.reader (get_all_directories Tree.fs "tree"))) ∧
  ∃ st : @loader_state string string,
    load_documents_from_directory Sample.reader Tree.fs Sample.as_completed
      "tree" = Normal st ∧
    documents st =
      flat_map future_docs
        (rev (map fst (submit_all Sample.reader
                         (get_all_directories Tree.fs "tree")))).
Proof.
  assert (fair Sample.as_completed
            (map fst (submit_all Sample.reader
                        (get_all_directories Tree.fs "tree")))) as Hfair.
  { vm_compute. symmetry. apply (Permutation_rev [_; _; _; _]). }
  split; [exact Hfair|].
  destruct (load_merges_in_yield_order (Response := string)
              Sample.reader Tree.fs Sample.as_completed "tree" Hfair)
    as (st & Hrun & Hdocs & _).
  exists st. split; [exact Hrun|exact Hdocs].
Defined.

(** X8: the loop receives every submitted future exactly once: the
    futures it received are, without repetition, those numbered below the
    number of enumerated directories. *)
Theorem load_receives_each_future_once {Document Response : Type}
    (reader : string -> @outcome Document) (fs : filesystem)
    (as_completed : scheduler) (directory : string) :
  fair as_completed
       (map fst (submit_all reader (get_all_directories fs directory))) ->
  ∃ st : @loader_state Document Response,
    load_documents_from_directory reader fs as_completed directory = Normal st ∧
    NoDup (completed_ids (trace st)) ∧
    (∀ i, i ∈ completed_ids (trace st) ↔
          i < length (get_all_directories fs directory)).
Proof.
  intros Hfair.
  destruct (loader_run (Response := Response) reader fs as_completed
              directory Hfair) as (st & Hrun & _ & _ & Hids & _).
  exists st. split; [done|]. split.
  - rewrite Hids. apply NoDup_seq.
  - intros i. rewrite Hids, elem_of_seq. lia.
Qed.

Lemma load_receives_each_future_once_witness :
  fair Sample.as_completed
       (map fst (submit_all Sample.reader (get_all_directories Sample.fs "data"))) ∧
  ∃ st : @loader_state string string,
    load_documents_from_directory Sample.reader Sample.fs Sample.as_completed
      "data" = Normal st ∧
    NoDup (completed_ids (trace st)) ∧
    (∀ i, i ∈ completed_ids (trace st) ↔ i < 2).
Proof.
  assert (fair Sample.as_completed
            (map fst (submit_all Sample.reader
                        (get_all_directories Sample.fs "data")))) as Hfair.
  { vm_compute. apply perm_swap. }
  split; [exact Hfair|].
  exact (load_receives_each_future_once (Response := string) Sample.reader
           Sample.fs Sample.as_completed "data" Hfair).
Defined.

(** X9: when the reader raises on every enumerated directory the run is
    not stopped: one diagnostic is printed per directory and [main] goes
    on to build the index over the empty list of documents. *)
Theorem all_loads_fail_empty_index {Document Index Engine Response : Type}
    (reader : string -> @outcome Document)
    (from_documents : list Document -> Index)
    (as_query_engine : Index -> bool -> nat -> Engine)
    (engine_query : Engine -> string -> Response)
    (fs : filesystem) (as_completed : scheduler)
    (data_folder model_name : string) (stdin : list string) :
  (∀ d, d ∈ get_all_directories fs data_folder -> failing reader d = true) ->
  fair as_completed
       (map fst (submit_all reader (get_all_directories fs data_folder))) ->
  ∃ before after : list event,
    events_of (main reader from_documents as_query_engine engine_query
                 fs as_completed data_folder model_name stdin) =
      before ++ EvBuildIndex [] :: after ∧
    length (printed before) = length (get_all_directories fs data_folder) ∧
    Forall (fun ev => is_build ev = false) before.
Proof.
  intros Hfail Hfair.
  destruct (loader_run (Response := Response) reader fs as_completed
              data_folder Hfair) as (st & Hrun & Hdocs & Hout & _ & Hquiet & _).
  rewrite (successful_results_all_fail _ _ Hfail) in Hdocs.
  apply Permutation_nil_r in Hdocs.
  exists (trace st ++ [EvEmbedModel "BAAI/bge-base-en-v1.5";
                       EvLlm model_name 360]),
    (EvAsQueryEngine true 5 ::
     events_of (interactive_loop engine_query
                  (as_query_engine (from_documents []) true 5) stdin)).
  split; [|split].
  - unfold main. rewrite Hrun, Hdocs.
    destruct (interactive_loop _ _ stdin); simpl; by rewrite <-app_assoc.
  - unfold printed in *. rewrite flat_map_app, length_app. simpl.
    rewrite Hout, length_diagnostics, (filter_all_fail _ _ Hfail). lia.
  - apply Forall_app. split; [|by repeat constructor].
    eapply Forall_impl; [exact Hquiet|]. by intros ev [? _].
Qed.

Lemma all_loads_fail_empty_index_witness :
  fair Sample.in_order
       (map fst (submit_all Tree.reader_bad (get_all_directories Tree.fs "tree"))) ∧
  ∃ before after : list event,
    events_of (main Tree.reader_bad Sample.from_documents
                 Sample.as_query_engine Sample.engine_query Tree.fs
                 Sample.in_order "tree" "llama3" ["exit"]) =
      before ++ EvBuildIndex [] :: after ∧
    length (printed before) = 4 ∧
    Forall (fun ev => is_build ev = false) before.
Proof.
  assert (fair Sample.in_order
            (map fst (submit_all Tree.reader_bad
                        (get_all_directories Tree.fs "tree")))) as Hfair.
  { vm_compute. reflexivity. }
  split; [exact Hfair|].
  apply (all_loads_fail_empty_index Tree.reader_bad Sample.from_documents
           Sample.as_query_engine Sample.engine_query Tree.fs Sample.in_order
           "tree" "llama3" ["exit"]); [|exact Hfair].
  intros d _. reflexivity.
Defined.

(** X10: looking a future up in the dict of submissions gives back the
    directory it was submitted for, at every position of the list of
    directories, also when a directory occurs twice or two directories
    give the same result. *)
Theorem future_to_dir_lookup {Document : Type}
    (reader : string -> @outcome Document) (dir_paths : list string)
    (i : nat) (d : string) :
  dir_paths !! i = Some d ->
  dict_get (submit_all reader dir_paths) (executor_submit reader i d) = Some d.
Proof. apply dict_get_submitted. Qed.

Lemma future_to_dir_lookup_witness :
  ["x"; "y"; "x"] !! 2 = Some "x" ∧
  dict_get (submit_all Sample.reader_ok ["x"; "y"; "x"])
           (executor_submit Sample.reader_ok 2 "x") = Some "x".
Proof.
  split; [reflexivity|].
  exact (future_to_dir_lookup Sample.reader_ok ["x"; "y"; "x"] 2 "x" eq_refl).
Defined.

(** ** Further properties of the interactive loop *)

Module LoopMore.

Lemma length_lower (s : string) : String.length (Str.lower s) = String.length s.
Proof. induction s as [|a s IH]; [done|]. simpl. by rewrite IH. Qed.

Section Loop.

Context {Document Engine Response : Type}.
Variable engine_query : Engine -> string -> Response.
Variable query_engine : Engine.

Lemma loop_cons_query (query : string) (rest : list string) :
  Str.lower query ≠ "exit" ->
  interactive_loop (Document := Document) engine_query query_engine
    (query :: rest) =
  match interactive_loop engine_query query_engine rest with
  | Normal evs => Normal (exchange engine_query query_engine query ++ evs)
  | Escapes e evs => Escapes e (exchange engine_query query_engine query ++ evs)
  end.
Proof.
  intros H. simpl.
  by rewrite (LoopFacts.loop_iteration_query engine_query query_engine _ H).
Qed.

Lemma loop_cons_exit (query : string) (rest : list string) :
  Str.lower query = "exit" ->
  interactive_loop (Document := Document) engine_query query_engine
    (query :: rest) = Normal [EvInput prompt query].
Proof.
  intros H. simpl.
  by rewrite (LoopFacts.loop_iteration_exit engine_query query_engine _ H).
Qed.

Lemma queries_exchanges (lines : list string) :
  queries (flat_map (exchange (Document := Document) engine_query query_engine)
                    lines) = lines.
Proof. induction lines as [|q lines IH]; [done|]. simpl. by rewrite IH. Qed.

(** The loop ends normally only on a line whose lower case is [exit],
    and the input of that line is its last event. *)
Lemma loop_normal_last (stdin : list string)
    (evs : list (@event Document Response)) :
  interactive_loop engine_query query_engine stdin = Normal evs ->
  ∃ line, line ∈ stdin ∧ Str.lower line = "exit" ∧
          last evs = Some (EvInput prompt line).
Proof.
  revert evs. induction stdin as [|q stdin IH]; intros evs; [done|].
  destruct (decide (Str.lower q = "exit")) as [Hq|Hq].
  - rewrite (loop_cons_exit _ _ Hq). intros [= <-].
    exists q. split; [by left|done].
  - rewrite (loop_cons_query _ _ Hq).
    destruct (interactive_loop _ _ stdin) as [evs'|e evs']; [|done].
    intros [= <-]. destruct (IH evs' eq_refl) as (line & Hin & Hline & Hlast).
    exists line. split; [by right|]. split; [done|].
    rewrite !last_cons. by rewrite Hlast.
Qed.

End Loop.

End LoopMore.

(** X11: the loop answers the lines in order up to the first line whose
    lower case is [exit] and reads nothing after it: its events are one
    exchange (input, query, streamed response, empty line) per earlier
    line and then the input of the exit line; the strings sent to the
    engine are exactly the earlier lines, unchanged and in order. *)
Theorem loop_until_exit {Document Engine Response : Type}
    (engine_query : Engine -> string -> Response) (query_engine : Engine)
    (before : list string) (line : string) (rest : list string) :
  Forall (fun q => Str.lower q ≠ "exit") before ->
  Str.lower line = "exit" ->
  interactive_loop (Document := Document) engine_query query_engine
    (before ++ line :: rest) =
    Normal (flat_map (exchange engine_query query_engine) before ++
            [EvInput prompt line]) ∧
  queries (events_of
             (interactive_loop (Document := Document) engine_query
                query_engine (before ++ line :: rest))) = before.
Proof.
  intros Hbefore Hline.
  assert (interactive_loop (Document := Document) engine_query query_engine
            (before ++ line :: rest) =
          Normal (flat_map (exchange engine_query query_engine) before ++
                  [EvInput prompt line])) as Hrun.
  { induction Hbefore as [|q before Hq _ IH]; simpl app.
    - by apply LoopMore.loop_cons_exit.
    - by rewrite (LoopMore.loop_cons_query _ _ _ _ Hq), IH. }
  split; [done|]. rewrite Hrun. simpl. unfold queries.
  rewrite flat_map_app. simpl. rewrite app_nil_r.
  apply LoopMore.queries_exchanges.
Qed.

Lemma loop_until_exit_witness :
  Forall (fun q => Str.lower q ≠ "exit") ["hi"; " exit"] ∧
  Str.lower "eXit" = "exit" ∧
  queries (events_of
             (interactive_loop (Document := string) Sample.engine_query
                ["1.txt"] (["hi"; " exit"] ++ "eXit" :: ["late"]))) =
    ["hi"; " exit"].
Proof.
  assert (Forall (fun q => Str.lower q ≠ "exit") ["hi"; " exit"]) as H.
  { repeat constructor; vm_compute; discriminate. }
  split; [exact H|]. split; [reflexivity|].
  exact (proj2 (loop_until_exit (Document := string) Sample.engine_query
                  ["1.txt"] ["hi"; " exit"] "eXit" ["late"] H eq_refl)).
Defined.

(** X12: when no line of standard input has lower case [exit], every
    line is answered in order and the loop then ends with the [EOFError]
    that [input] raises on the closed input. *)
Theorem loop_without_exit {Document Engine Response : Type}
    (engine_query : Engine -> string -> Response) (query_engine : Engine)
    (lines : list string) :
  Forall (fun q => Str.lower q ≠ "exit") lines ->
  interactive_loop (Document := Document) engine_query query_engine lines =
    Escapes "EOFError"
      (flat_map (exchange engine_query query_engine) lines ++
       [EvInputEOF prompt]).
Proof.
  induction 1 as [|q lines Hq _ IH]; [done|].
  by rewrite (LoopMore.loop_cons_query _ _ _ _ Hq), IH.
Qed.

Lemma loop_without_exit_witness :
  Forall (fun q => Str.lower q ≠ "exit") ["hi"; "quit"] ∧
  interactive_loop (Document := string) Sample.engine_query ["1.txt"]
    ["hi"; "quit"] =
    Escapes "EOFError"
      (flat_map (exchange Sample.engine_query ["1.txt"]) ["hi"; "quit"] ++
       [EvInputEOF prompt]).
Proof.
  assert (Forall (fun q => Str.lower q ≠ "exit") ["hi"; "quit"]) as H.
  { repeat constructor; vm_compute; discriminate. }
  split; [exact H|].
  exact (loop_without_exit (Document := string) Sample.engine_query
           ["1.txt"] ["hi"; "quit"] H).
Defined.

(** X13: the only normal way out of [main] is the [break] of the loop:
    when a run of [main] ends normally, some line of standard input has
    lower case [exit], and reading that line is the last thing the run
    did. *)
Theorem main_returns_only_on_exit {Document Index Engine Response : Type}
    (reader : string -> @outcome Document)
    (from_documents : list Document -> Index)
    (as_query_engine : Index -> bool -> nat -> Engine)
    (engine_query : Engine -> string -> Response)
    (fs : filesystem) (as_completed : scheduler)
    (data_folder model_name : string) (stdin : list string)
    (evs : list event) :
  main reader from_documents as_query_engine engine_query
    fs as_completed data_folder model_name stdin = Normal evs ->
  ∃ line, line ∈ stdin ∧ Str.lower line = "exit" ∧
          last evs = Some (EvInput prompt line).
Proof.
  unfold main.
  destruct (load_documents_from_directory reader fs as_completed data_folder)
    as [st|e st]; [|done].
  destruct (interactive_loop engine_query
              (as_query_engine (from_documents (documents st)) true 5) stdin)
    as [evs'|e evs'] eqn:Hloop; [|done].
  intros [= <-].
  destruct (LoopMore.loop_normal_last engine_query _ _ _ Hloop)
    as (line & Hin & Hline & Hlast).
  exists line. split; [done|]. split; [done|].
  rewrite last_app, !last_cons. by rewrite Hlast.
Qed.

Lemma main_returns_only_on_exit_witness :
  main Sample.reader Sample.from_documents Sample.as_query_engine
    Sample.engine_query Sample.fs Sample.in_order "flat" "llama3"
    ["hi"; "EXIT"; "late"] =
  Normal [EvEmbedModel "BAAI/bge-base-en-v1.5"; EvLlm "llama3" 360;
          EvBuildIndex []; EvAsQueryEngine true 5;
          EvInput prompt "hi"; EvQuery "hi"; EvStream "hi?"; EvPrint "";
          EvInput prompt "EXIT"] ∧
  ∃ line, line ∈ ["hi"; "EXIT"; "late"] ∧ Str.lower line = "exit" ∧
          last [EvEmbedModel "BAAI/bge-base-en-v1.5"; EvLlm "llama3" 360;
                EvBuildIndex ([] : list string); EvAsQueryEngine true 5;
                EvInput prompt "hi"; EvQuery "hi"; EvStream "hi?"; EvPrint "";
                EvInput prompt "EXIT"] = Some (EvInput prompt line).
Proof.
  split; [reflexivity|].
  exact (main_returns_only_on_exit Sample.reader Sample.from_documents
           Sample.as_query_engine Sample.engine_query Sample.fs
           Sample.in_order "flat" "llama3" ["hi"; "EXIT"; "late"] _ eq_refl).
Defined.

(** X14: the line is compared as typed, without stripping: a line that
    is not four characters long never ends the loop and is sent to the
    engine as it is. *)
Theorem unstripped_line_is_queried {Document Engine Response : Type}
    (engine_query : Engine -> string -> Response) (query_engine : Engine)
    (query : string) :
  String.length query ≠ 4 ->
  loop_iteration (Document := Document) engine_query query_engine query =
    (exchange engine_query query_engine query, AWAITING_INPUT).
Proof.
  intros Hlen. apply LoopFacts.loop_iteration_query.
  intros H. apply Hlen. by rewrite <-LoopMore.length_lower, H.
Qed.

Lemma unstripped_line_is_queried_witness :
  String.length "exit " ≠ 4 ∧
  loop_iteration (Document := string) Sample.engine_query ["1.txt"] "exit " =
    (exchange Sample.engine_query ["1.txt"] "exit ", AWAITING_INPUT).
Proof.
  assert (String.length "exit " ≠ 4) as H by (vm_compute; lia).
  split; [exact H|].
  exact (unstripped_line_is_queried (Document := string) Sample.engine_query
           ["1.txt"] "exit " H).
Defined.
